(** * Narrow-phase ray/triangle intersection (trimesh/ray/ray_triangle_cpu.py)

    A shallow embedding of [rays_triangles_id], [ray_triangles] and
    [_diag_dot], and the properties of them that the specification states.

    - Coordinates are IEEE-754 binary64 numbers (numpy's float64),
      modelled by Rocq's primitive floats: overflow, infinities and NaN
      behave as they do in numpy.
    - A numpy array is a list: [list float] for shape (n,), [list vec3]
      for (n,3), [list triangle] for (n,3,3), [list bool] for a mask.
    - A Python exception is the [Raise] branch of [result].  Indexing
      follows numpy from version 1.13 on: a boolean index whose length is
      not that of the array raises [IndexError], as does an integer index
      outside [-n, n).
    - [np.array(hits)] keeps the per-ray arrays as they are, one entry per
      ray. *)

From Stdlib Require Import Floats ZArith List Bool Lia.
From stdpp Require Import base tactics option list.
Import ListNotations.

Set Default Proof Using "Type".
Local Open Scope float_scope.

(** ** Exceptions *)

Inductive exn : Set := IndexError | ValueError.

Inductive result (A : Type) : Type :=
| Ok (a : A)
| Raise (e : exn).
Arguments Ok {A} a.
Arguments Raise {A} e.

#[global] Instance result_ret : MRet result := fun A a => Ok a.
#[global] Instance result_bind : MBind result := fun A B f m =>
  match m with
  | Ok a => f a
  | Raise e => Raise e
  end.

Definition is_ok {A} (r : result A) : bool :=
  match r with Ok _ => true | Raise _ => false end.

(** ** The numpy operations the module uses *)

Module Np.

Definition vec3 : Type := float * float * float.

(** [a - b] on two rows. *)
Definition sub3 (a b : vec3) : vec3 :=
  let '(a0, a1, a2) := a in
  let '(b0, b1, b2) := b in
  (a0 - b0, a1 - b1, a2 - b2).

(** [np.cross] on two rows. *)
Definition cross (a b : vec3) : vec3 :=
  let '(a0, a1, a2) := a in
  let '(b0, b1, b2) := b in
  (a1 * b2 - a2 * b1, a2 * b0 - a0 * b2, a0 * b1 - a1 * b0).

(** [np.dot] on two rows, summed left to right. *)
Definition dot (a b : vec3) : float :=
  let '(a0, a1, a2) := a in
  let '(b0, b1, b2) := b in
  a0 * b0 + a1 * b1 + a2 * b2.

(** [x > y] *)
Definition gtb (x y : float) : bool := y <? x.

(** [np.ones(n, dtype=np.bool)] *)
Definition ones (n : nat) : list bool := repeat true n.

(** [m.any()] *)
Definition any (m : list bool) : bool := existsb (fun b => b) m.

(** The rows of [a] at the true places of [mask]. *)
Fixpoint compress {A} (mask : list bool) (a : list A) : list A :=
  match mask, a with
  | b :: mask', x :: a' =>
      if b then x :: compress mask' a' else compress mask' a'
  | _, _ => []
  end.

(** [a[mask]] for a boolean [mask]: the shapes must agree. *)
Definition bool_index {A} (a : list A) (mask : list bool) : result (list A) :=
  if Nat.eqb (length mask) (length a) then Ok (compress mask a)
  else Raise IndexError.

(** [a] with the true places of [mask] overwritten by [vals], in order. *)
Fixpoint scatter (mask : list bool) (a vals : list bool) : list bool :=
  match mask, a with
  | b :: mask', x :: a' =>
      if b then
        match vals with
        | v :: vals' => v :: scatter mask' a' vals'
        | [] => x :: scatter mask' a' []
        end
      else x :: scatter mask' a' vals
  | _, _ => a
  end.

Definition count_true (mask : list bool) : nat :=
  length (List.filter (fun b => b) mask).

(** [a[mask] = vals] for a boolean [mask] and an array [vals]. *)
Definition bool_assign (a mask vals : list bool) : result (list bool) :=
  if Nat.eqb (length mask) (length a) then
    if Nat.eqb (count_true mask) (length vals) then Ok (scatter mask a vals)
    else Raise ValueError
  else Raise IndexError.

(** [a[mask] = v] for a boolean [mask] and a scalar [v]. *)
Definition bool_assign_scalar (a mask : list bool) (v : bool)
  : result (list bool) :=
  if Nat.eqb (length mask) (length a) then
    Ok (scatter mask a (repeat v (count_true mask)))
  else Raise IndexError.

Fixpoint zip_with {A B C} (f : A -> B -> C) (a : list A) (b : list B)
  : list C :=
  match a, b with
  | x :: a', y :: b' => f x y :: zip_with f a' b'
  | _, _ => []
  end.

(** An elementwise binary operation on two arrays of one shape.  (numpy
    would also stretch an array of length one; no call below meets arrays
    of different lengths, see [ray_triangles_eq].) *)
Definition ew2 {A B C} (f : A -> B -> C) (a : list A) (b : list B)
  : result (list C) :=
  if Nat.eqb (length a) (length b) then Ok (zip_with f a b)
  else Raise ValueError.

(** One integer index into an array of length [n]: [-n <= i < n], the
    negative ones counted from the end. *)
Definition norm_index (n : nat) (i : Z) : result nat :=
  if (0 <=? i)%Z && (i <? Z.of_nat n)%Z then Ok (Z.to_nat i)
  else if (- Z.of_nat n <=? i)%Z && (i <? 0)%Z
       then Ok (Z.to_nat (Z.of_nat n + i))
       else Raise IndexError.

(** [a[idx]] for an array [idx] of integers. *)
Fixpoint int_index {A} (a : list A) (idx : list Z) : result (list A) :=
  match idx with
  | [] => Ok []
  | i :: idx' =>
      k ← norm_index (length a) i;
      match a !! k with
      | Some x => r ← int_index a idx'; Ok (x :: r)
      | None => Raise IndexError
      end
  end.

End Np.

(** ** Data *)

(** A triangle: the rows [triangles[i,0,:]], [triangles[i,1,:]] and
    [triangles[i,2,:]]. *)
Record triangle : Type := Triangle {
  tri_v0 : Np.vec3;
  tri_v1 : Np.vec3;
  tri_v2 : Np.vec3
}.

(** A ray: the rows [rays[i,0,:]] (start) and [rays[i,1,:]] (direction). *)
Record ray : Type := Ray {
  ray_origin : Np.vec3;
  ray_direction : Np.vec3
}.

(** Dot product by row of [a] and [b]; [zip] stops at the shorter one. *)
Definition _diag_dot (a b : list Np.vec3) : list float :=
  map (fun '(i, j) => Np.dot i j) (combine a b).

Section Intersector.

(** [TOL_ZERO] comes from the constants module, which is not part of the
    sources at hand: it is a parameter here. *)
Variable TOL_ZERO : float.

(** Intersection of multiple triangles and a single ray. *)
Definition ray_triangles (triangles : list triangle)
    (ray_origin ray_direction : Np.vec3) : result (list bool) :=
  let candidates := Np.ones (length triangles) in
  let vert0 := map tri_v0 triangles in
  let vert1 := map tri_v1 triangles in
  let vert2 := map tri_v2 triangles in
  edge0 ← Np.ew2 Np.sub3 vert1 vert0;
  edge1 ← Np.ew2 Np.sub3 vert2 vert0;
  let P := map (Np.cross ray_direction) edge1 in
  let det := _diag_dot edge0 P in
  candidates ← Np.bool_assign_scalar candidates
                 (map (fun x => abs x <? TOL_ZERO) det) false;
  if negb (Np.any candidates) then Ok candidates else
  det_c ← Np.bool_index det candidates;
  let inv_det := map (fun x => 1 / x) det_c in
  vert0_c ← Np.bool_index vert0 candidates;
  let T := map (Np.sub3 ray_origin) vert0_c in
  P_c ← Np.bool_index P candidates;
  u ← Np.ew2 mul (_diag_dot T P_c) inv_det;
  rejected ← Np.ew2 orb (map (fun x => x <? - TOL_ZERO) u)
                        (map (fun x => Np.gtb x (1 + TOL_ZERO)) u);
  let new_candidates := map negb rejected in
  candidates ← Np.bool_assign candidates candidates new_candidates;
  if negb (Np.any candidates) then Ok candidates else
  inv_det ← Np.bool_index inv_det new_candidates;
  T ← Np.bool_index T new_candidates;
  u ← Np.bool_index u new_candidates;
  edge0_c ← Np.bool_index edge0 candidates;
  Q ← Np.ew2 Np.cross T edge0_c;
  v ← Np.ew2 mul (map (Np.dot ray_direction) Q) inv_det;
  u_plus_v ← Np.ew2 add u v;
  rejected ← Np.ew2 orb (map (fun x => x <? - TOL_ZERO) v)
                        (map (fun x => Np.gtb x (1 + TOL_ZERO)) u_plus_v);
  let new_candidates := map negb rejected in
  candidates ← Np.bool_assign candidates candidates new_candidates;
  if negb (Np.any candidates) then Ok candidates else
  Q ← Np.bool_index Q new_candidates;
  inv_det ← Np.bool_index inv_det new_candidates;
  edge1_c ← Np.bool_index edge1 candidates;
  t ← Np.ew2 mul (_diag_dot edge1_c Q) inv_det;
  candidates ← Np.bool_assign candidates candidates
                 (map (fun x => Np.gtb x TOL_ZERO) t);
  Ok candidates.

(** Lines 59-74 of [ray_triangles]: the mask [candidates] after the
    determinant filter. *)
Definition det_filter (triangles : list triangle)
    (ray_direction : Np.vec3) : result (list bool) :=
  let candidates := Np.ones (length triangles) in
  let vert0 := map tri_v0 triangles in
  let vert1 := map tri_v1 triangles in
  let vert2 := map tri_v2 triangles in
  edge0 ← Np.ew2 Np.sub3 vert1 vert0;
  edge1 ← Np.ew2 Np.sub3 vert2 vert0;
  let P := map (Np.cross ray_direction) edge1 in
  let det := _diag_dot edge0 P in
  Np.bool_assign_scalar candidates
    (map (fun x => abs x <? TOL_ZERO) det) false.

(** Lines 59-78 of [ray_triangles]: the array [det[candidates]] that
    [1.0 / det[candidates]] divides by; empty when line 76 has returned
    and nothing is divided. *)
Definition divisors (triangles : list triangle)
    (ray_direction : Np.vec3) : result (list float) :=
  let candidates := Np.ones (length triangles) in
  let vert0 := map tri_v0 triangles in
  let vert1 := map tri_v1 triangles in
  let vert2 := map tri_v2 triangles in
  edge0 ← Np.ew2 Np.sub3 vert1 vert0;
  edge1 ← Np.ew2 Np.sub3 vert2 vert0;
  let P := map (Np.cross ray_direction) edge1 in
  let det := _diag_dot edge0 P in
  candidates ← Np.bool_assign_scalar candidates
                 (map (fun x => abs x <? TOL_ZERO) det) false;
  if negb (Np.any candidates) then Ok []
  else Np.bool_index det candidates.

End Intersector.

(** ** The quantities of one triangle, as [ray_triangles] computes them *)

Section PerTriangle.

Variable TOL_ZERO : float.
Variables ray_origin ray_direction : Np.vec3.

Definition edge0_of (tr : triangle) : Np.vec3 :=
  Np.sub3 (tri_v1 tr) (tri_v0 tr).
Definition edge1_of (tr : triangle) : Np.vec3 :=
  Np.sub3 (tri_v2 tr) (tri_v0 tr).
Definition P_of (tr : triangle) : Np.vec3 :=
  Np.cross ray_direction (edge1_of tr).
Definition det_of (tr : triangle) : float :=
  Np.dot (edge0_of tr) (P_of tr).
Definition inv_det_of (tr : triangle) : float := 1 / det_of tr.
Definition T_of (tr : triangle) : Np.vec3 :=
  Np.sub3 ray_origin (tri_v0 tr).
Definition u_of (tr : triangle) : float :=
  Np.dot (T_of tr) (P_of tr) * inv_det_of tr.
Definition Q_of (tr : triangle) : Np.vec3 :=
  Np.cross (T_of tr) (edge0_of tr).
Definition v_of (tr : triangle) : float :=
  Np.dot ray_direction (Q_of tr) * inv_det_of tr.
Definition t_of (tr : triangle) : float :=
  Np.dot (edge1_of tr) (Q_of tr) * inv_det_of tr.

(** The four filters, written with the comparisons of the source. *)
Definition pass_det (tr : triangle) : bool :=
  negb (abs (det_of tr) <? TOL_ZERO).
Definition pass_u (tr : triangle) : bool :=
  negb ((u_of tr <? - TOL_ZERO) || Np.gtb (u_of tr) (1 + TOL_ZERO)).
Definition pass_v (tr : triangle) : bool :=
  negb ((v_of tr <? - TOL_ZERO)
        || Np.gtb (u_of tr + v_of tr) (1 + TOL_ZERO)).
Definition pass_t (tr : triangle) : bool := Np.gtb (t_of tr) TOL_ZERO.

Definition hit_test (tr : triangle) : bool :=
  pass_det tr && pass_u tr && pass_v tr && pass_t tr.

(** The six conditions as the specification words them, with IEEE
    comparisons. *)
Definition six_conditions (tr : triangle) : bool :=
  (TOL_ZERO <=? abs (det_of tr))
  && (- TOL_ZERO <=? u_of tr)
  && (u_of tr <=? 1 + TOL_ZERO)
  && (- TOL_ZERO <=? v_of tr)
  && (u_of tr + v_of tr <=? 1 + TOL_ZERO)
  && (TOL_ZERO <? t_of tr).

(** Some coordinate of the ray or of the triangle is NaN. *)
Definition vec_nan (a : Np.vec3) : bool :=
  let '(a0, a1, a2) := a in is_nan a0 || is_nan a1 || is_nan a2.
Definition nan_input (tr : triangle) : bool :=
  vec_nan ray_origin || vec_nan ray_direction
  || vec_nan (tri_v0 tr) || vec_nan (tri_v1 tr) || vec_nan (tri_v2 tr).

End PerTriangle.

(** ** Degenerate inputs *)

(** A float that is a zero, of either sign, or NaN. *)
Definition zn (x : float) : bool := (x =? 0) || is_nan x.

(** A row whose three entries are zeros or NaN. *)
Definition vec_zn (a : Np.vec3) : bool :=
  let '(a0, a1, a2) := a in zn a0 && zn a1 && zn a2.

(** The null vector, with zeros of either sign. *)
Definition is_zero_vec (a : Np.vec3) : bool :=
  let '(a0, a1, a2) := a in (a0 =? 0) && (a1 =? 0) && (a2 =? 0).

(** ** The ray-batch driver *)

(** What [ray_candidates[ray_index]] may be: a boolean mask over the
    triangles or an array of triangle indices. *)
Inductive index_array : Type :=
| BoolIdx (mask : list bool)
| IntIdx (idx : list Z).

(** An entry of [np.array(candidates)]. *)
Inductive value : Set :=
| VBool (b : bool)
| VInt (i : Z).

(** What [rays_triangles_id] returns: a bool when [return_any] is set, else
    [np.array(hits)], one entry per ray ([None] where nothing was stored). *)
Inductive output : Type :=
| ReturnAny (hit : bool)
| Intersections (hits : list (option (list value))).

(** [a[ix]] *)
Definition getitem {A} (a : list A) (ix : index_array) : result (list A) :=
  match ix with
  | BoolIdx mask => Np.bool_index a mask
  | IntIdx idx => Np.int_index a idx
  end.

(** [np.array(candidates)] *)
Definition as_values (ix : index_array) : list value :=
  match ix with
  | BoolIdx mask => map VBool mask
  | IntIdx idx => map VInt idx
  end.

(** Computations that may raise and that record, in order, the rays the
    triangle intersector was invoked for. *)
Definition traced (A : Type) : Type := list nat -> list nat * result A.

#[global] Instance traced_ret : MRet traced := fun A a log => (log, Ok a).
#[global] Instance traced_bind : MBind traced := fun A B f m log =>
  match m log with
  | (log', Ok a) => f a log'
  | (log', Raise e) => (log', Raise e)
  end.

Definition lift {A} (r : result A) : traced A := fun log => (log, r).

Section Driver.

Variable TOL_ZERO : float.
Variable triangles : list triangle.
Variable ray_candidates : option (list index_array).
Variable return_any : bool.

(** Lines 39-40: the candidates of ray [ray_index], [candidates] being
    the value the variable holds on entry. *)
Definition resolve (candidates : index_array) (ray_index : nat)
  : result index_array :=
  match ray_candidates with
  | None => Ok candidates
  | Some rc =>
      match rc !! ray_index with
      | Some c => Ok c
      | None => Raise IndexError
      end
  end.

(** One invocation of the intersector, recorded. *)
Definition intersect (ray_index : nat) (tris : list triangle) (r : ray)
  : traced (list bool) :=
  fun log =>
    (log ++ [ray_index],
     ray_triangles TOL_ZERO tris (ray_origin r) (ray_direction r)).

(** The loop over [enumerate(rays)]: [inl b] when the function returned
    [b] from inside the loop, [inr hits] when the loop ran to its end. *)
Fixpoint for_rays (rays : list ray) (ray_index : nat)
    (candidates : index_array) (hits : list (option (list value)))
  : traced (bool + list (option (list value))) :=
  match rays with
  | [] => mret (inr hits)
  | r :: rays' =>
      candidates ← lift (resolve candidates ray_index);
      tris ← lift (getitem triangles candidates);
      hit ← intersect ray_index tris r;
      if return_any then
        if Np.any hit then mret (inl true)
        else for_rays rays' (S ray_index) candidates hits
      else
        h ← lift (Np.bool_index (as_values candidates) hit);
        for_rays rays' (S ray_index) candidates
                 (<[ray_index := Some h]> hits)
  end.

Definition rays_triangles_id_traced (rays : list ray)
  : list nat * result output :=
  let candidates := BoolIdx (Np.ones (length triangles)) in
  let hits := replicate (length rays) None in
  (x ← for_rays rays 0 candidates hits;
   match x with
   | inl b => mret (ReturnAny b)
   | inr hits =>
       if return_any then mret (ReturnAny false)
       else mret (Intersections hits)
   end) [].

(** Intersect a set of rays and triangles. *)
Definition rays_triangles_id (rays : list ray) : result output :=
  snd (rays_triangles_id_traced rays).

(** The rays the intersector was invoked for, in order of invocation. *)
Definition intersector_calls (rays : list ray) : list nat :=
  fst (rays_triangles_id_traced rays).

(** Lines 39-42 for one ray, from the initial value of [candidates]: the
    candidates the ray resolves to and its hit mask. *)
Definition query (ray_index : nat) (r : ray)
  : result (index_array * list bool) :=
  candidates ← resolve (BoolIdx (Np.ones (length triangles))) ray_index;
  tris ← getitem triangles candidates;
  hit ← ray_triangles TOL_ZERO tris (ray_origin r) (ray_direction r);
  Ok (candidates, hit).

(** The variable [candidates] resolves every ray as its initial value
    does: the invariant of the loop. *)
Definition tracks (candidates : index_array) : Prop :=
  forall j, resolve candidates j
            = resolve (BoolIdx (Np.ones (length triangles))) j.

(** Line 46 for one ray: the entry stored in [hits]. *)
Definition ray_hits (ray_index : nat) (r : ray) : result (list value) :=
  q ← query ray_index r;
  Np.bool_index (as_values (fst q)) (snd q).

End Driver.

(** [0 <= i < n]: an index that numpy takes as it stands. *)
Definition in_range (n : nat) (i : Z) : bool :=
  (0 <=? i)%Z && (i <? Z.of_nat n)%Z.


(** Whether the filters of [ray_triangles] pass triangle number [j]. *)
Definition hits_triangle (TOL_ZERO : float) (triangles : list triangle)
    (r : ray) (j : Z) : bool :=
  match triangles !! Z.to_nat j with
  | Some tr => hit_test TOL_ZERO (ray_origin r) (ray_direction r) tr
  | None => false
  end.

(** [-n <= i < n]: an index that numpy accepts. *)
Definition valid_index (n : nat) (i : Z) : bool :=
  (- Z.of_nat n <=? i)%Z && (i <? Z.of_nat n)%Z.

(** The place a valid index stands for: negative ones count from the
    end. *)
Definition wrap_index (n : nat) (i : Z) : Z :=
  if (i <? 0)%Z then (Z.of_nat n + i)%Z else i.

(** The constants module of trimesh sets [TOL_ZERO = 1e-12]; this is that
    binary64 number, used where the code is evaluated on concrete inputs. *)
Definition TOL_ZERO_value : float := 0x1.19799812dea11p-40.

(** ** Concrete inputs *)

(** The triangle and the two rays of the specification's scenario. *)
Definition scenario_triangle : triangle :=
  Triangle (0, 0, 0) (1, 0, 0) (0, 1, 0).
Definition scenario_ray_hit : ray := Ray (0.25, 0.25, 1) (0, 0, -1).
Definition scenario_ray_miss : ray := Ray (5, 5, 1) (0, 0, -1).

(** A triangle and a ray with finite coordinates for which the products in
    [T . P] overflow to infinities of opposite sign, so that [u] is NaN.
    In exact arithmetic [u = 5]: the ray passes outside the triangle. *)
Definition overflow_triangle : triangle :=
  Triangle (0, 0, 0) (0, 0, 1) (0, 1, 0x1p500).
Definition overflow_ray : ray :=
  Ray (- 0x1p600, - 0x1p600, 5) (0x1p40, 0x1p40, 0).

(** The scenario's triangle with a NaN coordinate. *)
Definition nan_triangle : triangle :=
  Triangle (nan, 0, 0) (1, 0, 0) (0, 1, 0).

(** ** Lemmas on the array operations *)

Section ArrayLemmas.

Context {A B C X : Type}.

Lemma bind_Ok (a : A) (f : A -> result B) : (Ok a ≫= f) = f a.
Proof. reflexivity. Qed.

Lemma zip_with_map (h : A -> B -> C) (f : X -> A) (g : X -> B) xs :
  Np.zip_with h (map f xs) (map g xs) = map (fun x => h (f x) (g x)) xs.
Proof. induction xs as [|x xs IH]; simpl; congruence. Qed.

Lemma ew2_map (h : A -> B -> C) (f : X -> A) (g : X -> B) xs :
  Np.ew2 h (map f xs) (map g xs) = Ok (map (fun x => h (f x) (g x)) xs).
Proof.
  unfold Np.ew2. rewrite !length_map, Nat.eqb_refl, zip_with_map.
  reflexivity.
Qed.

Lemma compress_map (p : X -> bool) (f : X -> A) xs :
  Np.compress (map p xs) (map f xs) = map f (List.filter p xs).
Proof.
  induction xs as [|x xs IH]; simpl; [reflexivity|].
  destruct (p x); simpl; congruence.
Qed.

Lemma bool_index_map (p : X -> bool) (f : X -> A) xs :
  Np.bool_index (map f xs) (map p xs) = Ok (map f (List.filter p xs)).
Proof.
  unfold Np.bool_index. rewrite !length_map, Nat.eqb_refl, compress_map.
  reflexivity.
Qed.

Lemma count_true_map (p : X -> bool) xs :
  Np.count_true (map p xs) = length (List.filter p xs).
Proof.
  unfold Np.count_true.
  induction xs as [|x xs IH]; simpl; [reflexivity|].
  destruct (p x); simpl; congruence.
Qed.

Lemma filter_filter_andb (p q : X -> bool) xs :
  List.filter q (List.filter p xs)
  = List.filter (fun x => p x && q x) xs.
Proof.
  induction xs as [|x xs IH]; simpl; [reflexivity|].
  destruct (p x); simpl; [destruct (q x)|]; congruence.
Qed.

Lemma any_map_false (p : X -> bool) xs :
  Np.any (map p xs) = false -> forall x, In x xs -> p x = false.
Proof.
  unfold Np.any. induction xs as [|y xs IH]; simpl; [tauto|].
  intros H x [->|Hx].
  - destruct (p x); [discriminate|reflexivity].
  - apply IH; [|assumption]. destruct (p y); [discriminate|assumption].
Qed.

Lemma any_map_absorb (p q : X -> bool) xs :
  Np.any (map p xs) = false -> map p xs = map (fun x => p x && q x) xs.
Proof.
  intros H. apply map_ext_in. intros x Hx.
  rewrite (any_map_false p xs H x Hx). reflexivity.
Qed.

Lemma any_map_true (p : X -> bool) xs :
  Np.any (map p xs) = true <-> exists x, In x xs /\ p x = true.
Proof.
  unfold Np.any. rewrite existsb_exists. split.
  - intros (b & Hb & ->). apply in_map_iff in Hb as (x & Hx & Hin).
    eauto.
  - intros (x & Hin & Hx). exists true. split; [|reflexivity].
    rewrite <- Hx. apply in_map. assumption.
Qed.

End ArrayLemmas.

Section MaskLemmas.

Context {X : Type}.

Lemma scatter_map (p q : X -> bool) xs :
  Np.scatter (map p xs) (map p xs) (map q (List.filter p xs))
  = map (fun x => p x && q x) xs.
Proof.
  induction xs as [|x xs IH]; simpl; [reflexivity|].
  destruct (p x); simpl; congruence.
Qed.

Lemma bool_assign_map (p q : X -> bool) xs :
  Np.bool_assign (map p xs) (map p xs) (map q (List.filter p xs))
  = Ok (map (fun x => p x && q x) xs).
Proof.
  unfold Np.bool_assign.
  rewrite Nat.eqb_refl, count_true_map, length_map, Nat.eqb_refl.
  rewrite scatter_map. reflexivity.
Qed.

Lemma scatter_ones_false (p : X -> bool) xs :
  Np.scatter (map p xs) (Np.ones (length xs))
             (repeat false (Np.count_true (map p xs)))
  = map (fun x => negb (p x)) xs.
Proof.
  unfold Np.ones, Np.count_true.
  induction xs as [|x xs IH]; simpl; [reflexivity|].
  destruct (p x); simpl; congruence.
Qed.

Lemma bool_assign_scalar_ones (p : X -> bool) xs :
  Np.bool_assign_scalar (Np.ones (length xs)) (map p xs) false
  = Ok (map (fun x => negb (p x)) xs).
Proof.
  unfold Np.bool_assign_scalar.
  rewrite scatter_ones_false.
  unfold Np.ones. rewrite length_map, repeat_length, Nat.eqb_refl.
  reflexivity.
Qed.

Lemma diag_dot_map (f g : X -> Np.vec3) xs :
  _diag_dot (map f xs) (map g xs) = map (fun x => Np.dot (f x) (g x)) xs.
Proof.
  unfold _diag_dot. induction xs as [|x xs IH]; simpl; congruence.
Qed.

End MaskLemmas.

(** ** [ray_triangles] is the composition of the four masks *)

Lemma bind_eq {A B} (m : result A) (f : A -> result B) a r :
  m = Ok a -> f a = r -> (m ≫= f) = r.
Proof. intros -> <-. reflexivity. Qed.

Ltac np_norm :=
  repeat first [ rewrite map_map | rewrite diag_dot_map
               | rewrite filter_filter_andb ].

(** One array operation at the head of the computation. *)
Ltac np_step :=
  eapply bind_eq;
  [ np_norm;
    first [ apply ew2_map | apply bool_index_map | apply bool_assign_map
          | apply bool_assign_scalar_ones ]
  | cbv beta ].

(** [if not candidates.any(): return candidates] *)
Ltac np_branch H :=
  lazymatch goal with
  | |- (if negb ?b then _ else _) = _ =>
      destruct b eqn:H; simpl negb; cbv iota
  end.

Ltac np_return E :=
  f_equal; apply map_ext_in;
  let x := fresh "x" in
  let Hx := fresh "Hx" in
  intros x Hx; transitivity false;
  [ exact (E x Hx) | unfold hit_test; rewrite (E x Hx); reflexivity ].

Section IntersectorCorrect.

Variable TOL_ZERO : float.
Variables o d : Np.vec3.

Lemma ray_triangles_eq (triangles : list triangle) :
  ray_triangles TOL_ZERO triangles o d
  = Ok (map (hit_test TOL_ZERO o d) triangles).
Proof.
  unfold ray_triangles. cbv zeta.
  do 3 np_step.
  np_branch Hany.
  2:{ pose proof (any_map_false _ _ Hany) as E.
      change (forall x, In x triangles -> pass_det TOL_ZERO d x = false) in E.
      np_return E. }
  clear Hany. do 6 np_step.
  np_branch Hany.
  2:{ pose proof (any_map_false _ _ Hany) as E.
      change (forall x, In x triangles ->
                pass_det TOL_ZERO d x && pass_u TOL_ZERO o d x = false) in E.
      np_return E. }
  clear Hany. do 9 np_step.
  np_branch Hany.
  2:{ pose proof (any_map_false _ _ Hany) as E.
      change (forall x, In x triangles ->
                pass_det TOL_ZERO d x && pass_u TOL_ZERO o d x
                && pass_v TOL_ZERO o d x = false) in E.
      np_return E. }
  clear Hany. do 5 np_step.
  reflexivity.
Qed.

End IntersectorCorrect.

(** ** IEEE facts used below, from the specification of the primitive floats *)

Module F.

Lemma is_nan_spec x : is_nan x = true <-> Prim2SF x = S754_nan.
Proof.
  unfold is_nan. rewrite FloatAxioms.eqb_spec. unfold SFeqb, SFcompare.
  destruct (Prim2SF x) as [s|s| |s m e]; try (destruct s); simpl;
    rewrite ?Z.compare_refl, ?Pos.compare_cont_refl; simpl;
    split; congruence.
Qed.

Lemma not_nan_spec x : is_nan x = false <-> Prim2SF x <> S754_nan.
Proof.
  rewrite <- is_nan_spec. destruct (is_nan x); split; congruence.
Qed.

(** A comparison with NaN is false. *)
Lemma ltb_nan_l x y : is_nan x = true -> (x <? y) = false.
Proof.
  rewrite is_nan_spec, ltb_spec. intros ->. reflexivity.
Qed.

Lemma ltb_nan_r x y : is_nan y = true -> (x <? y) = false.
Proof.
  rewrite is_nan_spec, ltb_spec. intros ->. unfold SFltb, SFcompare.
  destruct (Prim2SF x); reflexivity.
Qed.

Lemma leb_nan_l x y : is_nan x = true -> (x <=? y) = false.
Proof.
  rewrite is_nan_spec, leb_spec. intros ->. reflexivity.
Qed.

Lemma leb_nan_r x y : is_nan y = true -> (x <=? y) = false.
Proof.
  rewrite is_nan_spec, leb_spec. intros ->. unfold SFleb, SFcompare.
  destruct (Prim2SF x); reflexivity.
Qed.

Lemma ltb_true_not_nan x y :
  (x <? y) = true -> is_nan x = false /\ is_nan y = false.
Proof.
  intros H. split.
  - destruct (is_nan x) eqn:E; [|reflexivity].
    rewrite (ltb_nan_l x y E) in H. discriminate.
  - destruct (is_nan y) eqn:E; [|reflexivity].
    rewrite (ltb_nan_r x y E) in H. discriminate.
Qed.

Lemma leb_true_not_nan x y :
  (x <=? y) = true -> is_nan x = false /\ is_nan y = false.
Proof.
  intros H. split.
  - destruct (is_nan x) eqn:E; [|reflexivity].
    rewrite (leb_nan_l x y E) in H. discriminate.
  - destruct (is_nan y) eqn:E; [|reflexivity].
    rewrite (leb_nan_r x y E) in H. discriminate.
Qed.

(** The order is total away from NaN. *)
Lemma SFcompare_antisym a b :
  SFcompare b a = option_map CompOpp (SFcompare a b).
Proof.
  destruct a as [sa|sa| |sa ma ea], b as [sb|sb| |sb mb eb];
    try reflexivity;
    try (destruct sa; reflexivity);
    try (destruct sb; reflexivity);
    try (destruct sa, sb; reflexivity).
  unfold SFcompare.
  rewrite (Z.compare_antisym ea eb).
  change (PosDef.Pos.compare_cont Eq mb ma)
    with (Pos.compare_cont (CompOpp Eq) mb ma).
  rewrite <- (Pos.compare_cont_antisym ma mb Eq).
  destruct sa, sb; simpl; try reflexivity;
    destruct (ea ?= eb)%Z; simpl; try reflexivity;
    rewrite ?CompOpp_involutive; reflexivity.
Qed.

Lemma SFcompare_some a b :
  a <> S754_nan -> b <> S754_nan -> exists c, SFcompare a b = Some c.
Proof.
  destruct a, b; simpl; intros; try congruence; eauto.
Qed.

Lemma leb_negb_ltb x y :
  is_nan x = false -> is_nan y = false -> (y <=? x) = negb (x <? y).
Proof.
  rewrite !not_nan_spec, leb_spec, ltb_spec. intros Hx Hy.
  unfold SFleb, SFltb. rewrite (SFcompare_antisym (Prim2SF x) (Prim2SF y)).
  destruct (SFcompare_some _ _ Hx Hy) as [c ->].
  destruct c; reflexivity.
Qed.

Lemma leb_true_ltb_false x y : (y <=? x) = true -> (x <? y) = false.
Proof.
  intros H. destruct (leb_true_not_nan _ _ H) as [Hy Hx].
  rewrite (leb_negb_ltb x y Hx Hy) in H.
  destruct (x <? y); [discriminate|reflexivity].
Qed.

(** NaN is absorbing. *)
Lemma abs_nan x : is_nan (abs x) = is_nan x.
Proof.
  apply eq_true_iff_eq. rewrite !is_nan_spec, abs_spec.
  destruct (Prim2SF x); simpl; split; congruence.
Qed.

Lemma opp_nan x : is_nan (- x) = is_nan x.
Proof.
  apply eq_true_iff_eq. rewrite !is_nan_spec, opp_spec.
  destruct (Prim2SF x); simpl; split; congruence.
Qed.

Lemma add_nan_l x y : is_nan x = true -> is_nan (x + y) = true.
Proof. rewrite !is_nan_spec, add_spec. intros ->. reflexivity. Qed.

Lemma add_nan_r x y : is_nan y = true -> is_nan (x + y) = true.
Proof.
  rewrite !is_nan_spec, add_spec. intros ->.
  destruct (Prim2SF x); reflexivity.
Qed.

Lemma sub_nan_l x y : is_nan x = true -> is_nan (x - y) = true.
Proof. rewrite !is_nan_spec, sub_spec. intros ->. reflexivity. Qed.

Lemma sub_nan_r x y : is_nan y = true -> is_nan (x - y) = true.
Proof.
  rewrite !is_nan_spec, sub_spec. intros ->.
  destruct (Prim2SF x); reflexivity.
Qed.

Lemma mul_nan_l x y : is_nan x = true -> is_nan (x * y) = true.
Proof. rewrite !is_nan_spec, mul_spec. intros ->. reflexivity. Qed.

Lemma mul_nan_r x y : is_nan y = true -> is_nan (x * y) = true.
Proof.
  rewrite !is_nan_spec, mul_spec. intros ->.
  destruct (Prim2SF x); reflexivity.
Qed.

Lemma div_nan_r x y : is_nan y = true -> is_nan (x / y) = true.
Proof.
  rewrite !is_nan_spec, div_spec. intros ->.
  destruct (Prim2SF x); reflexivity.
Qed.

(** Below a positive bound in magnitude: zero is. *)
Lemma abs_zero_ltb x tol :
  (x =? 0) = true -> (0 <? tol) = true -> (abs x <? tol) = true.
Proof.
  rewrite FloatAxioms.eqb_spec, !ltb_spec, abs_spec.
  change (Prim2SF 0) with (S754_zero false).
  destruct (Prim2SF x) as [s|s| |s m e]; try destruct s;
    cbv [SFeqb SFcompare SFabs]; congruence.
Qed.

(** Rounding never produces a NaN. *)
Lemma iter_pos_inv {A} (P : A -> Prop) (f : A -> A) :
  (forall x, P x -> P (f x)) -> forall p x, P x -> P (SpecFloat.iter_pos f p x).
Proof.
  intros Hf. induction p as [p IH|p IH|]; simpl; intros x Hx; auto.
Qed.

Lemma shr_1_nonneg mrs : (0 <= shr_m mrs)%Z -> (0 <= shr_m (shr_1 mrs))%Z.
Proof.
  destruct mrs as [m r s]. simpl.
  destruct m as [|[p|p|]|[p|p|]]; simpl; lia.
Qed.

Lemma shr_nonneg mrs e n :
  (0 <= shr_m mrs)%Z -> (0 <= shr_m (fst (shr mrs e n)))%Z.
Proof.
  intros H. destruct n; simpl; try assumption.
  apply (iter_pos_inv (fun r => (0 <= shr_m r)%Z)); [|assumption].
  apply shr_1_nonneg.
Qed.

Lemma shr_fexp_nonneg prec emax m e l :
  (0 <= m)%Z -> (0 <= shr_m (fst (shr_fexp prec emax m e l)))%Z.
Proof.
  intros H. unfold shr_fexp. apply shr_nonneg.
  destruct l as [|[]]; simpl; assumption.
Qed.

Lemma round_nearest_even_nonneg m l :
  (0 <= m)%Z -> (0 <= round_nearest_even m l)%Z.
Proof.
  intros H. destruct l as [|[]]; simpl; try lia.
  destruct (Z.even m); lia.
Qed.

Lemma binary_round_aux_not_nan prec emax sx mx ex lx :
  (0 <= mx)%Z -> binary_round_aux prec emax sx mx ex lx <> S754_nan.
Proof.
  intros H. unfold binary_round_aux.
  pose proof (shr_fexp_nonneg prec emax mx ex lx H) as H1.
  destruct (shr_fexp prec emax mx ex lx) as [mrs' e']. simpl in H1.
  pose proof (shr_fexp_nonneg prec emax _ e' loc_Exact
                (round_nearest_even_nonneg _ (loc_of_shr_record mrs') H1))
    as H2.
  destruct (shr_fexp prec emax _ e' loc_Exact) as [mrs'' e'']. simpl in H2.
  destruct (shr_m mrs''); try lia; try congruence.
  destruct (e'' <=? emax - prec)%Z; congruence.
Qed.

Lemma binary_normalize_not_nan prec emax m e s :
  binary_normalize prec emax m e s <> S754_nan.
Proof.
  unfold binary_normalize, binary_round.
  destruct m; [congruence| |];
    destruct (shl_align _ _ _); apply binary_round_aux_not_nan; lia.
Qed.

(** [1 + x] is NaN only for a NaN [x]. *)
Lemma one_plus_nan x : is_nan (1 + x) = is_nan x.
Proof.
  apply eq_true_iff_eq. rewrite !is_nan_spec, add_spec.
  change (Prim2SF 1) with (S754_finite false 4503599627370496 (-52)).
  unfold SF64add, SFadd.
  destruct (Prim2SF x) as [s|s| |s m e]; split; try congruence.
  intros H. exfalso. revert H. apply binary_normalize_not_nan.
Qed.

End F.

(** ** The triangle-batch intersector *)

Section IntersectorFacts.

Variable TOL_ZERO : float.
Variables o d : Np.vec3.

Lemma det_filter_eq (triangles : list triangle) :
  det_filter TOL_ZERO triangles d = Ok (map (pass_det TOL_ZERO d) triangles).
Proof.
  unfold det_filter. cbv zeta. do 2 np_step.
  np_norm. apply bool_assign_scalar_ones.
Qed.

Lemma divisors_eq (triangles : list triangle) :
  divisors TOL_ZERO triangles d
  = Ok (if Np.any (map (pass_det TOL_ZERO d) triangles)
        then map (det_of d) (List.filter (pass_det TOL_ZERO d) triangles)
        else []).
Proof.
  unfold divisors. cbv zeta. do 3 np_step.
  np_branch Hany;
    match type of Hany with
    | _ = ?b =>
        change (Np.any (map (pass_det TOL_ZERO d) triangles) = b) in Hany
    end;
    rewrite Hany; [|reflexivity].
  np_norm. apply bool_index_map.
Qed.

(** The six conditions of the specification are the four filters of the
    source, except where [u + v] is NaN. *)
Lemma six_conditions_hit_test (tr : triangle) :
  six_conditions TOL_ZERO o d tr
  = hit_test TOL_ZERO o d tr && negb (is_nan (u_of o d tr + v_of o d tr)).
Proof.
  unfold six_conditions, hit_test, pass_det, pass_u, pass_v, pass_t, Np.gtb.
  set (u := u_of o d tr). set (v := v_of o d tr). set (t := t_of o d tr).
  destruct (is_nan (u + v)) eqn:Huv.
  - rewrite (F.leb_nan_l (u + v) (1 + TOL_ZERO) Huv).
    rewrite !andb_false_r. reflexivity.
  - assert (Hu : is_nan u = false).
    { destruct (is_nan u) eqn:E; [|reflexivity].
      rewrite (F.add_nan_l u v E) in Huv. discriminate. }
    assert (Hv : is_nan v = false).
    { destruct (is_nan v) eqn:E; [|reflexivity].
      rewrite (F.add_nan_r u v E) in Huv. discriminate. }
    destruct (TOL_ZERO <? t) eqn:Ht.
    2:{ rewrite !andb_false_r. reflexivity. }
    destruct (F.ltb_true_not_nan _ _ Ht) as [Htol Htn].
    assert (Hdet : is_nan (det_of d tr) = false).
    { destruct (is_nan (det_of d tr)) eqn:E; [|reflexivity].
      exfalso. subst t. unfold t_of, inv_det_of in Htn.
      rewrite F.mul_nan_r in Htn; [discriminate|].
      apply F.div_nan_r. exact E. }
    rewrite (F.leb_negb_ltb (abs (det_of d tr)) TOL_ZERO)
      by (rewrite ?F.abs_nan; assumption).
    rewrite (F.leb_negb_ltb u (- TOL_ZERO))
      by (rewrite ?F.opp_nan; assumption).
    rewrite (F.leb_negb_ltb v (- TOL_ZERO))
      by (rewrite ?F.opp_nan; assumption).
    rewrite (F.leb_negb_ltb (1 + TOL_ZERO) u)
      by (rewrite ?F.one_plus_nan; assumption).
    rewrite (F.leb_negb_ltb (1 + TOL_ZERO) (u + v))
      by (rewrite ?F.one_plus_nan; assumption).
    destruct (abs (det_of d tr) <? TOL_ZERO), (u <? - TOL_ZERO),
      (1 + TOL_ZERO <? u), (v <? - TOL_ZERO), (1 + TOL_ZERO <? u + v);
      reflexivity.
Qed.

End IntersectorFacts.

(** ** NaN coordinates *)

Create HintDb nan discriminated.

Lemma or3_1 a b c : a = true -> a || b || c = true.
Proof. intros ->. reflexivity. Qed.
Lemma or3_2 a b c : b = true -> a || b || c = true.
Proof. intros ->. destruct a; reflexivity. Qed.
Lemma or3_3 a b c : c = true -> a || b || c = true.
Proof. intros ->. destruct a, b; reflexivity. Qed.
Lemma or3_inv a b c :
  a || b || c = true -> a = true \/ b = true \/ c = true.
Proof. destruct a, b, c; simpl; auto. Qed.

#[local] Hint Resolve F.add_nan_l F.add_nan_r F.sub_nan_l F.sub_nan_r
  F.mul_nan_l F.mul_nan_r F.div_nan_r or3_1 or3_2 or3_3 : nan.

Section NanPropagation.

Implicit Types a b : Np.vec3.

Lemma sub3_nan_l a b : vec_nan a = true -> vec_nan (Np.sub3 a b) = true.
Proof.
  destruct a as [[a0 a1] a2], b as [[b0 b1] b2]. simpl.
  intros H. apply or3_inv in H as [H|[H|H]]; auto with nan.
Qed.

Lemma sub3_nan_r a b : vec_nan b = true -> vec_nan (Np.sub3 a b) = true.
Proof.
  destruct a as [[a0 a1] a2], b as [[b0 b1] b2]. simpl.
  intros H. apply or3_inv in H as [H|[H|H]]; auto with nan.
Qed.

Lemma cross_nan_l a b : vec_nan a = true -> vec_nan (Np.cross a b) = true.
Proof.
  destruct a as [[a0 a1] a2], b as [[b0 b1] b2]. simpl.
  intros H. apply or3_inv in H as [H|[H|H]]; auto with nan.
Qed.

Lemma cross_nan_r a b : vec_nan b = true -> vec_nan (Np.cross a b) = true.
Proof.
  destruct a as [[a0 a1] a2], b as [[b0 b1] b2]. simpl.
  intros H. apply or3_inv in H as [H|[H|H]]; auto with nan.
Qed.

Lemma dot_nan_l a b : vec_nan a = true -> is_nan (Np.dot a b) = true.
Proof.
  destruct a as [[a0 a1] a2], b as [[b0 b1] b2]. simpl.
  intros H. apply or3_inv in H as [H|[H|H]]; auto 6 with nan.
Qed.

Lemma dot_nan_r a b : vec_nan b = true -> is_nan (Np.dot a b) = true.
Proof.
  destruct a as [[a0 a1] a2], b as [[b0 b1] b2]. simpl.
  intros H. apply or3_inv in H as [H|[H|H]]; auto 6 with nan.
Qed.

Variables o d : Np.vec3.

Lemma det_nan_t_nan tr :
  is_nan (det_of d tr) = true -> is_nan (t_of o d tr) = true.
Proof.
  intros H. unfold t_of, inv_det_of. auto with nan.
Qed.

(** A NaN coordinate of the ray or of the triangle makes [t] NaN. *)
Lemma nan_input_t_nan tr :
  nan_input o d tr = true -> is_nan (t_of o d tr) = true.
Proof.
  unfold nan_input. rewrite !orb_true_iff.
  intros [[[[H|H]|H]|H]|H].
  - unfold t_of. apply F.mul_nan_l, dot_nan_r, cross_nan_l, sub3_nan_l, H.
  - apply det_nan_t_nan. apply dot_nan_r, cross_nan_l, H.
  - unfold t_of. apply F.mul_nan_l, dot_nan_l, sub3_nan_r, H.
  - unfold t_of. apply F.mul_nan_l, dot_nan_r, cross_nan_r, sub3_nan_l, H.
  - unfold t_of. apply F.mul_nan_l, dot_nan_l, sub3_nan_l, H.
Qed.

Variable TOL_ZERO : float.

Lemma t_nan_no_hit tr :
  is_nan (t_of o d tr) = true -> hit_test TOL_ZERO o d tr = false.
Proof.
  intros H. unfold hit_test, pass_t, Np.gtb.
  rewrite (F.ltb_nan_r TOL_ZERO _ H). apply andb_false_r.
Qed.

(** The rejection tests on [det], [u] and [v] let a NaN through. *)
Lemma det_nan_pass tr :
  is_nan (det_of d tr) = true -> pass_det TOL_ZERO d tr = true.
Proof.
  intros H. unfold pass_det. rewrite F.ltb_nan_l; [reflexivity|].
  rewrite F.abs_nan. exact H.
Qed.

Lemma u_nan_pass tr :
  is_nan (u_of o d tr) = true ->
  pass_u TOL_ZERO o d tr = true /\ pass_v TOL_ZERO o d tr
                                   = negb (v_of o d tr <? - TOL_ZERO).
Proof.
  intros H. unfold pass_u, pass_v, Np.gtb.
  rewrite (F.ltb_nan_l _ _ H), (F.ltb_nan_r _ _ H).
  rewrite (F.ltb_nan_r _ _ (F.add_nan_l _ (v_of o d tr) H)).
  split; [reflexivity|]. rewrite orb_false_r. reflexivity.
Qed.

Lemma v_nan_pass tr :
  is_nan (v_of o d tr) = true -> pass_v TOL_ZERO o d tr = true.
Proof.
  intros H. unfold pass_v, Np.gtb.
  rewrite (F.ltb_nan_l _ _ H).
  rewrite (F.ltb_nan_r _ _ (F.add_nan_r (u_of o d tr) _ H)).
  reflexivity.
Qed.

End NanPropagation.

(** ** The statements of the specification on [ray_triangles] *)

(** C2, counterexample: for [overflow_triangle] and [overflow_ray]
    the mask of [ray_triangles] is true although [u] is NaN, so that the
    conditions [-TOL_ZERO <= u] and [u <= 1 + TOL_ZERO] do not hold. *)
Lemma C2_six_conditions_counterexample :
  ray_triangles TOL_ZERO_value [overflow_triangle]
    (ray_origin overflow_ray) (ray_direction overflow_ray) = Ok [true]
  /\ map (six_conditions TOL_ZERO_value (ray_origin overflow_ray)
            (ray_direction overflow_ray)) [overflow_triangle] = [false]
  /\ is_nan (u_of (ray_origin overflow_ray) (ray_direction overflow_ray)
               overflow_triangle) = true.
Proof. repeat split; vm_compute; reflexivity. Qed.

(** C2, amended: [ray_triangles] never raises and returns a mask of the
    length and order of the batch whose entry for a triangle is true
    exactly when none of the rejection tests of the source fires
    ([|det| < TOL_ZERO], [u < -TOL_ZERO], [u > 1 + TOL_ZERO],
    [v < -TOL_ZERO], [u + v > 1 + TOL_ZERO]) and [t > TOL_ZERO]; that is the
    six conditions of the specification for every triangle whose [u + v]
    is not NaN, while a triangle whose [u + v] is NaN fails the six
    conditions whatever the mask says. *)
Theorem C2_ray_triangles_mask (TOL_ZERO : float)
    (triangles : list triangle) (o d : Np.vec3) :
  ray_triangles TOL_ZERO triangles o d
  = Ok (map (hit_test TOL_ZERO o d) triangles)
  /\ forall tr,
       six_conditions TOL_ZERO o d tr
       = hit_test TOL_ZERO o d tr
         && negb (is_nan (u_of o d tr + v_of o d tr)).
Proof.
  split.
  - apply ray_triangles_eq.
  - apply six_conditions_hit_test.
Qed.

(** C3, counterexample: the determinant of [nan_triangle] is NaN; the
    triangle survives the determinant filter although [|det| >= TOL_ZERO]
    is false. *)
Lemma C3_nan_survives_det_filter :
  det_filter TOL_ZERO_value [nan_triangle] (0, 0, -1) = Ok [true]
  /\ (TOL_ZERO_value <=? abs (det_of (0, 0, -1) nan_triangle)) = false.
Proof. split; vm_compute; reflexivity. Qed.

(** C3, amended: a triangle survives the determinant filter exactly when
    the test [|det| < TOL_ZERO] is false, that is when [|det| >= TOL_ZERO]
    or [det] (or [TOL_ZERO]) is NaN; a triangle that fails the filter is
    never marked as a hit, and every triangle marked as a hit has
    [|det| >= TOL_ZERO]. *)
Theorem C3_det_filter (TOL_ZERO : float)
    (triangles : list triangle) (o d : Np.vec3) :
  det_filter TOL_ZERO triangles d
  = Ok (map (pass_det TOL_ZERO d) triangles)
  /\ ray_triangles TOL_ZERO triangles o d
     = Ok (map (hit_test TOL_ZERO o d) triangles)
  /\ forall tr,
       pass_det TOL_ZERO d tr
       = (TOL_ZERO <=? abs (det_of d tr))
         || is_nan (det_of d tr) || is_nan TOL_ZERO
       /\ (pass_det TOL_ZERO d tr = false ->
           hit_test TOL_ZERO o d tr = false)
       /\ (hit_test TOL_ZERO o d tr = true ->
           (TOL_ZERO <=? abs (det_of d tr)) = true).
Proof.
  split; [apply det_filter_eq|]. split; [apply ray_triangles_eq|].
  intros tr.
  assert (Hpass : pass_det TOL_ZERO d tr
                  = (TOL_ZERO <=? abs (det_of d tr))
                    || is_nan (det_of d tr) || is_nan TOL_ZERO).
  { unfold pass_det.
    destruct (is_nan (det_of d tr)) eqn:Hd.
    - rewrite F.ltb_nan_l by (rewrite F.abs_nan; exact Hd).
      rewrite orb_true_r. reflexivity.
    - destruct (is_nan TOL_ZERO) eqn:Ht.
      + rewrite (F.ltb_nan_r _ _ Ht), orb_true_r. reflexivity.
      + rewrite F.leb_negb_ltb by (rewrite ?F.abs_nan; assumption).
        rewrite !orb_false_r. reflexivity. }
  split; [exact Hpass|]. split.
  - intros H. unfold hit_test. rewrite H. reflexivity.
  - intros H.
    destruct (is_nan (t_of o d tr)) eqn:Ht.
    { rewrite (t_nan_no_hit o d TOL_ZERO tr Ht) in H. discriminate. }
    destruct (is_nan (det_of d tr)) eqn:Hd.
    { rewrite (det_nan_t_nan o d tr Hd) in Ht. discriminate. }
    unfold hit_test in H. rewrite !andb_true_iff in H.
    destruct H as [[[Hdet _] _] Hpt].
    destruct (F.ltb_true_not_nan _ _ Hpt) as [Htol _].
    rewrite Hpass, Htol, !orb_false_r in Hdet. exact Hdet.
Qed.

(** C9, counterexample: in a batch that contains NaN coordinates,
    [overflow_triangle] has a NaN [u] and is reported as a hit, and
    [nan_triangle], whose determinant is NaN, survives the determinant
    filter: the comparison [|det| < TOL_ZERO] does not fail it there. *)
Lemma C9_nan_passes_the_filters :
  ray_triangles TOL_ZERO_value [overflow_triangle; nan_triangle]
    (ray_origin overflow_ray) (ray_direction overflow_ray)
  = Ok [true; false]
  /\ is_nan (u_of (ray_origin overflow_ray) (ray_direction overflow_ray)
               overflow_triangle) = true
  /\ det_filter TOL_ZERO_value [overflow_triangle; nan_triangle]
       (ray_direction overflow_ray) = Ok [true; true]
  /\ is_nan (det_of (ray_direction overflow_ray) nan_triangle) = true.
Proof. repeat split; vm_compute; reflexivity. Qed.

(** C9, amended: [ray_triangles] never raises, and a triangle is never
    reported as a hit when a coordinate of the ray or of the triangle is
    NaN, or when its [det] or its [t] is NaN; it is the last test,
    [t > TOL_ZERO], that rejects it: the tests on [det], [u] and [v] are
    rejection tests, which a NaN passes. *)
Theorem C9_nan_no_hit (TOL_ZERO : float)
    (triangles : list triangle) (o d : Np.vec3) :
  ray_triangles TOL_ZERO triangles o d
  = Ok (map (hit_test TOL_ZERO o d) triangles)
  /\ forall tr,
       (nan_input o d tr = true -> hit_test TOL_ZERO o d tr = false)
       /\ (is_nan (det_of d tr) = true ->
           pass_det TOL_ZERO d tr = true
           /\ hit_test TOL_ZERO o d tr = false)
       /\ (is_nan (t_of o d tr) = true -> hit_test TOL_ZERO o d tr = false)
       /\ (is_nan (u_of o d tr) = true -> pass_u TOL_ZERO o d tr = true)
       /\ (is_nan (v_of o d tr) = true -> pass_v TOL_ZERO o d tr = true).
Proof.
  split; [apply ray_triangles_eq|]. intros tr. repeat split.
  - intros H. apply t_nan_no_hit, nan_input_t_nan, H.
  - apply det_nan_pass, H.
  - apply t_nan_no_hit, det_nan_t_nan, H.
  - apply t_nan_no_hit.
  - intros H. apply (u_nan_pass o d TOL_ZERO tr H).
  - apply v_nan_pass.
Qed.

(** C10: with a positive [TOL_ZERO], every determinant that
    [1.0 / det[candidates]] divides by has passed the determinant filter
    ([|det| < TOL_ZERO] is false) and is not zero. *)
Theorem C10_no_division_by_zero (TOL_ZERO : float)
    (triangles : list triangle) (d : Np.vec3)
    (Htol : (0 <? TOL_ZERO) = true) :
  exists ds, divisors TOL_ZERO triangles d = Ok ds
    /\ forall x, In x ds ->
         (abs x <? TOL_ZERO) = false /\ (x =? 0) = false.
Proof.
  eexists. split; [apply divisors_eq|].
  intros x Hx.
  assert (Hp : (abs x <? TOL_ZERO) = false).
  { destruct (Np.any _) in Hx; [|destruct Hx].
    apply in_map_iff in Hx as (tr & <- & Htr).
    apply List.filter_In in Htr as [_ Htr].
    unfold pass_det in Htr. destruct (abs (det_of d tr) <? TOL_ZERO);
      [discriminate|reflexivity]. }
  split; [exact Hp|].
  destruct (x =? 0) eqn:E; [|reflexivity].
  rewrite (F.abs_zero_ltb x TOL_ZERO E Htol) in Hp. discriminate.
Qed.

Lemma C10_no_division_by_zero_witness :
  (0 <? TOL_ZERO_value) = true
  /\ exists ds, divisors TOL_ZERO_value [scenario_triangle] (0, 0, -1) = Ok ds
       /\ forall x, In x ds ->
            (abs x <? TOL_ZERO_value) = false /\ (x =? 0) = false.
Proof.
  split; [reflexivity|].
  apply (C10_no_division_by_zero TOL_ZERO_value [scenario_triangle]
           (0, 0, -1)).
  reflexivity.
Defined.

(** ** Lists of per-ray results *)

Lemma insert_done {A} (done : list A) i h rest :
  length done = i ->
  <[i := Some h]> (map Some done ++ None :: rest)
  = map Some (done ++ [h]) ++ rest.
Proof.
  revert i. induction done as [|a done IH]; intros i <-.
  - reflexivity.
  - cbn. f_equal. apply IH. reflexivity.
Qed.


Lemma bool_index_raises {A} (a : list A) mask e :
  Np.bool_index a mask = Raise e -> e = IndexError.
Proof.
  unfold Np.bool_index. destruct (_ =? _)%nat; congruence.
Qed.

Lemma int_index_raises {A} (a : list A) idx e :
  Np.int_index a idx = Raise e -> e = IndexError.
Proof.
  induction idx as [|i idx IH]; cbn; [discriminate|].
  unfold Np.norm_index, mbind, result_bind.
  repeat (case_match; try congruence); exact IH.
Qed.

Lemma getitem_raises {A} (a : list A) ix e :
  getitem a ix = Raise e -> e = IndexError.
Proof.
  destruct ix; cbn; [apply bool_index_raises | apply int_index_raises].
Qed.

(** A hit mask selects something exactly when it has a true entry. *)
Lemma compress_nil_iff {A} (mask : list bool) (a : list A) :
  length mask = length a ->
  (Np.compress mask a = [] <-> Np.any mask = false).
Proof.
  revert a. induction mask as [|b mask IH]; intros [|x a] Hlen;
    try discriminate; cbn; [tauto|].
  destruct b; cbn; [split; discriminate|].
  apply IH. cbn in Hlen. lia.
Qed.

Lemma bool_index_nil_iff {A} (a : list A) mask h :
  Np.bool_index a mask = Ok h -> (h = [] <-> Np.any mask = false).
Proof.
  unfold Np.bool_index. destruct (_ =? _)%nat eqn:E; [|discriminate].
  intros [= <-]. apply compress_nil_iff, Nat.eqb_eq, E.
Qed.

(** ** The loop of [rays_triangles_id] *)

Section DriverFacts.

Variable TOL_ZERO : float.
Variable triangles : list triangle.
Variable ray_candidates : option (list index_array).

#[local] Abbreviation default := (BoolIdx (Np.ones (length triangles))).
#[local] Abbreviation resolve' := (resolve ray_candidates).
#[local] Abbreviation loop := (for_rays TOL_ZERO triangles ray_candidates).
#[local] Abbreviation query' := (query TOL_ZERO triangles ray_candidates).
#[local] Abbreviation ray_hits' := (ray_hits TOL_ZERO triangles ray_candidates).
#[local] Abbreviation tracks' := (tracks triangles ray_candidates).
#[local] Abbreviation mask r := (hit_test TOL_ZERO (ray_origin r) (ray_direction r)).

Lemma tracks_default : tracks' default.
Proof. intros j. reflexivity. Qed.

Lemma tracks_resolve candidates i c :
  tracks' candidates -> resolve' candidates i = Ok c -> tracks' c.
Proof.
  unfold tracks, resolve. intros H Hc j. specialize (H j).
  destruct ray_candidates; [reflexivity|]. congruence.
Qed.

(** One iteration of the loop. *)
Lemma loop_step return_any r rays i candidates hits log :
  loop return_any (r :: rays) i candidates hits log
  = match resolve' candidates i with
    | Raise e => (log, Raise e)
    | Ok c =>
        match getitem triangles c with
        | Raise e => (log, Raise e)
        | Ok tris =>
            let hit := map (mask r) tris in
            if return_any then
              if Np.any hit then (log ++ [i], Ok (inl true))
              else loop return_any rays (S i) c hits (log ++ [i])
            else
              match Np.bool_index (as_values c) hit with
              | Raise e => (log ++ [i], Raise e)
              | Ok h =>
                  loop return_any rays (S i) c (<[i := Some h]> hits)
                       (log ++ [i])
              end
        end
    end.
Proof.
  cbn [for_rays]. unfold mbind, traced_bind, lift, intersect.
  destruct (resolve' candidates i) as [c|e]; [|reflexivity].
  destruct (getitem triangles c) as [tris|e]; [|reflexivity].
  rewrite ray_triangles_eq. cbv zeta.
  destruct return_any.
  - destruct (Np.any _); reflexivity.
  - destruct (Np.bool_index _ _); reflexivity.
Qed.

Lemma query_eq i r :
  query' i r
  = match resolve' default i with
    | Raise e => Raise e
    | Ok c =>
        match getitem triangles c with
        | Raise e => Raise e
        | Ok tris => Ok (c, map (mask r) tris)
        end
    end.
Proof.
  unfold query, mbind, result_bind.
  destruct (resolve' default i) as [c|e]; [|reflexivity].
  destruct (getitem triangles c) as [tris|e]; [|reflexivity].
  rewrite ray_triangles_eq. reflexivity.
Qed.


Lemma ray_hits_eq i r :
  ray_hits' i r
  = match resolve' default i with
    | Raise e => Raise e
    | Ok c =>
        match getitem triangles c with
        | Raise e => Raise e
        | Ok tris => Np.bool_index (as_values c) (map (mask r) tris)
        end
    end.
Proof.
  unfold ray_hits. rewrite query_eq. unfold mbind, result_bind.
  destruct (resolve' default i) as [c|e]; [|reflexivity].
  destruct (getitem triangles c) as [tris|e]; reflexivity.
Qed.

Lemma ray_hits_query i r h :
  ray_hits' i r = Ok h ->
  exists c hit, query' i r = Ok (c, hit)
    /\ Np.bool_index (as_values c) hit = Ok h.
Proof.
  unfold ray_hits, mbind, result_bind.
  destruct (query' i r) as [[c hit]|e]; [|discriminate].
  eauto.
Qed.

(** The full mode: every ray gets its entry. *)
Lemma full_loop_inv rays : forall i candidates done log log' x,
  tracks' candidates -> length done = i ->
  loop false rays i candidates
       (map Some done ++ replicate (length rays) None) log = (log', Ok x) ->
  exists hs, x = inr (map Some (done ++ hs))
    /\ length hs = length rays
    /\ log' = log ++ seq i (length rays)
    /\ forall k r, rays !! k = Some r ->
         exists h, hs !! k = Some h /\ ray_hits' (i + k) r = Ok h.
Proof.
  induction rays as [|r rays IH]; intros i candidates done log log' x Ht Hi.
  - cbn. intros [= <- <-]. exists []. rewrite !app_nil_r.
    repeat split; try reflexivity. intros k r Hk. destruct k; discriminate.
  - rewrite loop_step. rewrite (Ht i).
    pose proof (ray_hits_eq i r) as Hr.
    destruct (resolve' default i) as [c|e] eqn:Hc; [|discriminate].
    destruct (getitem triangles c) as [tris|e]; [|discriminate].
    cbv zeta.
    destruct (Np.bool_index (as_values c) (map (mask r) tris)) as [h|e];
      [|discriminate].
    cbn [length replicate]. rewrite (insert_done done i h _ Hi).
    intros Hloop.
    apply IH in Hloop as (hs & -> & Hlen & -> & Hhs).
    + exists (h :: hs). rewrite <- app_assoc. cbn [app length seq].
      rewrite Hlen, <- app_assoc. repeat split; try reflexivity.
      intros [|k] r' Hk.
      * injection Hk as <-. exists h. rewrite Nat.add_0_r. auto.
      * destruct (Hhs k r' Hk) as (h' & Hh' & Hq). exists h'.
        rewrite Nat.add_succ_r. auto.
    + eapply tracks_resolve; [apply tracks_default | exact Hc].
    + rewrite length_app. cbn. lia.
Qed.

Lemma full_loop_run rays : forall i candidates done log hs,
  tracks' candidates -> length done = i -> length hs = length rays ->
  (forall k r h, rays !! k = Some r -> hs !! k = Some h ->
                 ray_hits' (i + k) r = Ok h) ->
  loop false rays i candidates
       (map Some done ++ replicate (length rays) None) log
  = (log ++ seq i (length rays), Ok (inr (map Some (done ++ hs)))).
Proof.
  induction rays as [|r rays IH];
    intros i candidates done log [|h hs] Ht Hi Hlen Hhs;
    try discriminate.
  - cbn. rewrite !app_nil_r. reflexivity.
  - rewrite loop_step. rewrite (Ht i).
    pose proof (Hhs 0%nat r h eq_refl eq_refl) as Hr.
    rewrite Nat.add_0_r, ray_hits_eq in Hr.
    destruct (resolve' default i) as [c|e] eqn:Hc; [|discriminate].
    destruct (getitem triangles c) as [tris|e]; [|discriminate].
    cbv zeta. rewrite Hr.
    cbn [length replicate]. rewrite (insert_done done i h _ Hi).
    rewrite (IH (S i) c (done ++ [h]) (log ++ [i]) hs).
    + rewrite <- !app_assoc. reflexivity.
    + eapply tracks_resolve; [apply tracks_default | exact Hc].
    + rewrite length_app. cbn. lia.
    + cbn in Hlen. lia.
    + intros k r' h' Hk Hh'. replace (S i + k)%nat with (i + S k)%nat by lia.
      apply (Hhs (S k)); assumption.
Qed.

(** The driver raises nothing but [IndexError]. *)
Lemma loop_raises return_any rays : forall i candidates hits log log' e,
  loop return_any rays i candidates hits log = (log', Raise e) ->
  e = IndexError.
Proof.
  induction rays as [|r rays IH]; intros i candidates hits log log' e.
  - cbn. discriminate.
  - rewrite loop_step.
    destruct (resolve' candidates i) as [c|e'] eqn:Hc.
    2:{ intros [= _ <-]. revert Hc. unfold resolve.
        destruct ray_candidates as [rc|]; [|discriminate].
        destruct (rc !! i); [discriminate|]. congruence. }
    destruct (getitem triangles c) as [tris|e'] eqn:Hg.
    2:{ intros [= _ <-]. eapply getitem_raises, Hg. }
    cbv zeta. destruct return_any.
    + destruct (Np.any _); [discriminate|]. apply IH.
    + destruct (Np.bool_index _ _) as [h|e'] eqn:Hb; [apply IH|].
      intros [= _ <-]. eapply bool_index_raises, Hb.
Qed.

(** The any mode. *)
Lemma any_loop_hit pre : forall r post i candidates hits log,
  tracks' candidates ->
  (forall k r', pre !! k = Some r' ->
     exists c hit, query' (i + k) r' = Ok (c, hit) /\ Np.any hit = false) ->
  (exists c hit, query' (i + length pre) r = Ok (c, hit)
                 /\ Np.any hit = true) ->
  loop true (pre ++ r :: post) i candidates hits log
  = (log ++ seq i (S (length pre)), Ok (inl true)).
Proof.
  induction pre as [|p pre IH]; intros r post i candidates hits log Ht Hpre Hr.
  - destruct Hr as (c & hit & Hq & Hany).
    cbn [app length]. rewrite Nat.add_0_r, query_eq in Hq.
    rewrite loop_step, (Ht i).
    destruct (resolve' default i) as [c'|e]; [|discriminate].
    destruct (getitem triangles c') as [tris|e]; [|discriminate].
    injection Hq as -> <-. cbv zeta. rewrite Hany. reflexivity.
  - destruct (Hpre 0%nat p eq_refl) as (c & hit & Hq & Hany).
    rewrite Nat.add_0_r, query_eq in Hq.
    cbn [app length]. rewrite loop_step, (Ht i).
    destruct (resolve' default i) as [c'|e] eqn:Hc; [|discriminate].
    destruct (getitem triangles c') as [tris|e]; [|discriminate].
    injection Hq as -> <-. cbv zeta. rewrite Hany.
    rewrite (IH r post (S i) c hits (log ++ [i])).
    + rewrite <- app_assoc. reflexivity.
    + eapply tracks_resolve; [apply tracks_default | exact Hc].
    + intros k r' Hk. replace (S i + k)%nat with (i + S k)%nat by lia.
      apply (Hpre (S k)). exact Hk.
    + replace (S i + length pre)%nat with (i + length (p :: pre))%nat
        by (cbn; lia).
      exact Hr.
Qed.

Lemma any_loop_inv rays : forall i candidates hits log log' x,
  tracks' candidates ->
  loop true rays i candidates hits log = (log', Ok x) ->
  (x = inl true
   /\ exists pre r post, rays = pre ++ r :: post
        /\ log' = log ++ seq i (S (length pre))
        /\ (exists c hit, query' (i + length pre) r = Ok (c, hit)
                          /\ Np.any hit = true)
        /\ forall k r', pre !! k = Some r' ->
             exists c hit, query' (i + k) r' = Ok (c, hit)
                           /\ Np.any hit = false)
  \/ (x = inr hits
      /\ log' = log ++ seq i (length rays)
      /\ forall k r, rays !! k = Some r ->
           exists c hit, query' (i + k) r = Ok (c, hit)
                         /\ Np.any hit = false).
Proof.
  induction rays as [|p rays IH]; intros i candidates hits log log' x Ht.
  - cbn. intros [= <- <-]. right. rewrite app_nil_r.
    repeat split. intros k r Hk. destruct k; discriminate.
  - rewrite loop_step, (Ht i).
    pose proof (query_eq i p) as Hq.
    destruct (resolve' default i) as [c|e] eqn:Hc; [|discriminate].
    destruct (getitem triangles c) as [tris|e]; [|discriminate].
    cbv zeta. destruct (Np.any (map (mask p) tris)) eqn:Hany.
    + intros [= <- <-]. left. split; [reflexivity|].
      exists [], p, rays. cbn [app length]. rewrite Nat.add_0_r.
      repeat split; eauto.
      intros k r' Hk. destruct k; discriminate.
    + intros Hloop. apply IH in Hloop
        as [(-> & pre & r & post & -> & -> & Hr & Hpre)
           |(-> & -> & Hall)].
      * left. split; [reflexivity|].
        exists (p :: pre), r, post. cbn [app length seq].
        rewrite <- app_assoc. repeat split.
        -- replace (i + S (length pre))%nat with (S i + length pre)%nat
             by lia.
           exact Hr.
        -- intros [|k] r' Hk.
           ++ injection Hk as <-. rewrite Nat.add_0_r. eauto.
           ++ replace (i + S k)%nat with (S i + k)%nat by lia.
              apply Hpre. exact Hk.
      * right. cbn [length seq]. rewrite <- app_assoc.
        repeat split.
        intros [|k] r Hk.
        -- injection Hk as <-. rewrite Nat.add_0_r. eauto.
        -- replace (i + S k)%nat with (S i + k)%nat by lia.
           apply Hall. exact Hk.
      * eapply tracks_resolve; [apply tracks_default | exact Hc].
Qed.

Lemma any_loop_total rays : forall i candidates hits log,
  tracks' candidates ->
  (forall k r, rays !! k = Some r -> exists q, query' (i + k) r = Ok q) ->
  exists log' x, loop true rays i candidates hits log = (log', Ok x).
Proof.
  induction rays as [|p rays IH]; intros i candidates hits log Ht Hq.
  - cbn. eauto.
  - destruct (Hq 0%nat p eq_refl) as [q Hp].
    rewrite Nat.add_0_r, query_eq in Hp.
    rewrite loop_step, (Ht i).
    destruct (resolve' default i) as [c|e] eqn:Hc; [|discriminate].
    destruct (getitem triangles c) as [tris|e]; [|discriminate].
    cbv zeta. destruct (Np.any _); [eauto|].
    apply IH.
    + eapply tracks_resolve; [apply tracks_default | exact Hc].
    + intros k r Hk. replace (S i + k)%nat with (i + S k)%nat by lia.
      apply (Hq (S k)). exact Hk.
Qed.

End DriverFacts.

(** ** The statements of the specification on [rays_triangles_id] *)

Section Toplevel.

Variable TOL_ZERO : float.
Variable triangles : list triangle.
Variable ray_candidates : option (list index_array).

Lemma traced_eq return_any rays :
  rays_triangles_id_traced TOL_ZERO triangles ray_candidates return_any rays
  = match for_rays TOL_ZERO triangles ray_candidates return_any rays 0
            (BoolIdx (Np.ones (length triangles)))
            (replicate (length rays) None) [] with
    | (log, Ok (inl b)) => (log, Ok (ReturnAny b))
    | (log, Ok (inr hits)) =>
        (log, Ok (if return_any then ReturnAny false
                  else Intersections hits))
    | (log, Raise e) => (log, Raise e)
    end.
Proof.
  unfold rays_triangles_id_traced, mbind, traced_bind. cbv zeta.
  destruct (for_rays _ _ _ _ _ _ _ _ _) as [log [[b|hits]|e]];
    try reflexivity.
  destruct return_any; reflexivity.
Qed.

(** What the full mode returns, when it returns. *)
Lemma full_mode_inv rays out :
  rays_triangles_id TOL_ZERO triangles ray_candidates false rays = Ok out ->
  exists hs, out = Intersections (map Some hs)
    /\ length hs = length rays
    /\ intersector_calls TOL_ZERO triangles ray_candidates false rays
       = seq 0 (length rays)
    /\ forall k r, rays !! k = Some r ->
         exists h, hs !! k = Some h
           /\ ray_hits TOL_ZERO triangles ray_candidates k r = Ok h.
Proof.
  unfold rays_triangles_id, intersector_calls. rewrite traced_eq.
  destruct (for_rays _ _ _ _ _ _ _ _ _) as [log [x|e]] eqn:Hloop;
    [|discriminate].
  apply (full_loop_inv _ _ _ rays 0 _ [] [] log x) in Hloop
    as (hs & -> & Hlen & -> & Hhs);
    [|apply tracks_default|reflexivity].
  cbn. intros [= <-]. exists hs. auto.
Qed.

Lemma full_mode_run rays hs :
  length hs = length rays ->
  (forall k r h, rays !! k = Some r -> hs !! k = Some h ->
                 ray_hits TOL_ZERO triangles ray_candidates k r = Ok h) ->
  rays_triangles_id_traced TOL_ZERO triangles ray_candidates false rays
  = (seq 0 (length rays), Ok (Intersections (map Some hs))).
Proof.
  intros Hlen Hhs. rewrite traced_eq.
  rewrite (full_loop_run _ _ _ rays 0 _ [] [] hs);
    auto using tracks_default.
Qed.

(** What the any mode returns, when it returns. *)
Lemma any_mode_inv rays out :
  rays_triangles_id TOL_ZERO triangles ray_candidates true rays = Ok out ->
  (out = ReturnAny true
   /\ exists pre r post, rays = pre ++ r :: post
        /\ intersector_calls TOL_ZERO triangles ray_candidates true rays
           = seq 0 (S (length pre))
        /\ (exists c hit,
              query TOL_ZERO triangles ray_candidates (length pre) r
              = Ok (c, hit) /\ Np.any hit = true)
        /\ forall k r', pre !! k = Some r' ->
             exists c hit,
               query TOL_ZERO triangles ray_candidates k r' = Ok (c, hit)
               /\ Np.any hit = false)
  \/ (out = ReturnAny false
      /\ intersector_calls TOL_ZERO triangles ray_candidates true rays
         = seq 0 (length rays)
      /\ forall k r, rays !! k = Some r ->
           exists c hit,
             query TOL_ZERO triangles ray_candidates k r = Ok (c, hit)
             /\ Np.any hit = false).
Proof.
  unfold rays_triangles_id, intersector_calls. rewrite traced_eq.
  destruct (for_rays _ _ _ _ _ _ _ _ _) as [log [x|e]] eqn:Hloop;
    [|discriminate].
  apply any_loop_inv in Hloop
    as [(-> & pre & r & post & -> & -> & Hr & Hpre)|(-> & -> & Hall)];
    [| |apply tracks_default]; cbn; intros [= <-].
  - left. split; [reflexivity|]. exists pre, r, post. auto.
  - right. auto.
Qed.

(** Where the full mode returns, the any mode returns. *)
Lemma full_ok_any_ok rays out :
  rays_triangles_id TOL_ZERO triangles ray_candidates false rays = Ok out ->
  exists out',
    rays_triangles_id TOL_ZERO triangles ray_candidates true rays = Ok out'.
Proof.
  intros Hfull. apply full_mode_inv in Hfull as (hs & _ & _ & _ & Hhs).
  destruct (any_loop_total TOL_ZERO triangles ray_candidates rays 0
              (BoolIdx (Np.ones (length triangles)))
              (replicate (length rays) None) [])
    as (log' & x & Hloop).
  { apply tracks_default. }
  { intros k r Hk. destruct (Hhs k r Hk) as (h & _ & Hr).
    apply ray_hits_query in Hr as (c & hit & Hq & _). eauto. }
  unfold rays_triangles_id. rewrite traced_eq, Hloop.
  destruct x; cbn; eauto.
Qed.

End Toplevel.




(** C6: with [return_any] set, the rays are taken in index order; at the
    first ray whose hit mask has a true entry the function returns true,
    the intersector having been invoked for the rays up to that one and
    for no later ray, whatever the later rays are; and when the function
    returns false the intersector has been invoked for every ray, in
    order, and no ray has a hit. *)
Theorem C6_return_any_short_circuit (TOL_ZERO : float)
    (triangles : list triangle)
    (ray_candidates : option (list index_array)) :
  (forall pre r post,
     (forall k r', pre !! k = Some r' ->
        exists c hit,
          query TOL_ZERO triangles ray_candidates k r' = Ok (c, hit)
          /\ Np.any hit = false) ->
     (exists c hit,
        query TOL_ZERO triangles ray_candidates (length pre) r = Ok (c, hit)
        /\ Np.any hit = true) ->
     rays_triangles_id_traced TOL_ZERO triangles ray_candidates true
       (pre ++ r :: post)
     = (seq 0 (S (length pre)), Ok (ReturnAny true)))
  /\ (forall rays,
        rays_triangles_id TOL_ZERO triangles ray_candidates true rays
        = Ok (ReturnAny false) ->
        intersector_calls TOL_ZERO triangles ray_candidates true rays
        = seq 0 (length rays)
        /\ forall k r, rays !! k = Some r ->
             exists c hit,
               query TOL_ZERO triangles ray_candidates k r = Ok (c, hit)
               /\ Np.any hit = false).
Proof.
  split.
  - intros pre r post Hpre Hr. rewrite traced_eq.
    rewrite (any_loop_hit TOL_ZERO triangles ray_candidates pre r post 0);
      auto using tracks_default.
  - intros rays Hout.
    apply any_mode_inv in Hout as [[[=] _]|(_ & Hcalls & Hall)]. auto.
Qed.

(** *** No rays, no triangles *)

Lemma norm_index_0 i : Np.norm_index 0 i = Raise IndexError.
Proof.
  unfold Np.norm_index. change (Z.of_nat 0) with 0%Z. change (- 0)%Z with 0%Z.
  destruct (0 <=? i)%Z eqn:E1, (i <? 0)%Z eqn:E2; cbn; try reflexivity.
  apply Z.leb_le in E1. apply Z.ltb_lt in E2. lia.
Qed.

Lemma getitem_nil {A} c (tris : list A) :
  getitem [] c = Ok tris -> tris = [] /\ as_values c = [].
Proof.
  destruct c as [mask|idx]; cbn.
  - unfold Np.bool_index. destruct mask; cbn; [|discriminate].
    intros [= <-]. auto.
  - destruct idx as [|i idx]; cbn; [intros [= <-]; auto|].
    rewrite norm_index_0. discriminate.
Qed.

Lemma map_Some_replicate {A} n (x : A) :
  map Some (replicate n x) = replicate n (Some x).
Proof. induction n; cbn; congruence. Qed.

Lemma all_nil_replicate {A} (hs : list (list A)) n :
  length hs = n -> (forall k h, hs !! k = Some h -> h = []) ->
  hs = replicate n [].
Proof.
  revert n. induction hs as [|h hs IH]; intros n <- H; [reflexivity|].
  cbn. rewrite (H 0%nat h eq_refl). f_equal.
  apply IH; [reflexivity|]. intros k h' Hk. apply (H (S k)). exact Hk.
Qed.

Lemma query_no_triangles TOL_ZERO rc k r c hit :
  query TOL_ZERO [] rc k r = Ok (c, hit) -> as_values c = [] /\ hit = [].
Proof.
  rewrite query_eq.
  destruct (resolve rc _ k) as [c'|e]; [|discriminate].
  destruct (getitem [] c') as [tris|e] eqn:Hg; [|discriminate].
  apply getitem_nil in Hg as [-> Hc]. intros [= <- <-]. auto.
Qed.

(** C7: with no rays the function returns an empty result (false in the
    any mode) and the intersector is not invoked; with no triangles every
    ray's candidates are empty, the intersector returns an empty mask, and
    every ray's result is the empty list (false in the any mode): so it is
    with no candidates supplied and with empty candidates supplied, and so
    is every result the function returns at all. *)
Theorem C7_zero_rays_zero_triangles (TOL_ZERO : float) :
  (forall triangles rc return_any,
     rays_triangles_id_traced TOL_ZERO triangles rc return_any []
     = ([], Ok (if return_any then ReturnAny false else Intersections [])))
  /\ (forall o d, ray_triangles TOL_ZERO [] o d = Ok [])
  /\ (forall rays,
        (forall k r, query TOL_ZERO [] None k r = Ok (BoolIdx [], []))
        /\ rays_triangles_id TOL_ZERO [] None false rays
           = Ok (Intersections (replicate (length rays) (Some [])))
        /\ rays_triangles_id TOL_ZERO [] None true rays
           = Ok (ReturnAny false))
  /\ (forall rc rays,
        length rays <= length rc ->
        Forall (fun c => as_values c = []) rc ->
        rays_triangles_id TOL_ZERO [] (Some rc) false rays
        = Ok (Intersections (replicate (length rays) (Some [])))
        /\ rays_triangles_id TOL_ZERO [] (Some rc) true rays
           = Ok (ReturnAny false))
  /\ (forall rc return_any rays,
        (forall k r c hit,
           query TOL_ZERO [] rc k r = Ok (c, hit) ->
           as_values c = [] /\ hit = [])
        /\ forall out,
             rays_triangles_id TOL_ZERO [] rc return_any rays = Ok out ->
             out = if return_any then ReturnAny false
                   else Intersections (replicate (length rays) (Some []))).
Proof.
  assert (Hgen : forall rc return_any rays out,
            rays_triangles_id TOL_ZERO [] rc return_any rays = Ok out ->
            out = if return_any then ReturnAny false
                  else Intersections (replicate (length rays) (Some []))).
  { intros rc [|] rays out Hout.
    - apply any_mode_inv in Hout
        as [(_ & pre & r & post & _ & _ & (c & hit & Hq & Hany) & _)
           |(-> & _)]; [|reflexivity].
      apply query_no_triangles in Hq as [_ ->]. discriminate.
    - apply full_mode_inv in Hout as (hs & -> & Hlen & _ & Hhs).
      rewrite (all_nil_replicate hs (length rays) Hlen).
      { rewrite map_Some_replicate. reflexivity. }
      intros k h Hk.
      destruct (rays !! k) as [r|] eqn:Hr.
      2:{ apply lookup_ge_None in Hr. apply lookup_lt_Some in Hk. lia. }
      destruct (Hhs k r Hr) as (h' & Hh' & Hr').
      rewrite Hk in Hh'. injection Hh' as <-.
      apply ray_hits_query in Hr' as (c & hit & Hq & Hb).
      apply query_no_triangles in Hq as [_ ->].
      apply (bool_index_nil_iff _ _ _ Hb). reflexivity. }
  split; [intros triangles rc [|]; reflexivity|].
  split; [reflexivity|].
  split.
  - intros rays. split; [reflexivity|].
    assert (Hfull : rays_triangles_id TOL_ZERO [] None false rays
                    = Ok (Intersections (replicate (length rays) (Some [])))).
    { unfold rays_triangles_id.
      rewrite (full_mode_run TOL_ZERO [] None rays
                 (replicate (length rays) [])).
      - rewrite map_Some_replicate. reflexivity.
      - apply length_replicate.
      - intros k r h _ Hh. apply lookup_replicate in Hh as [-> _].
        reflexivity. }
    split; [exact Hfull|].
    destruct (full_ok_any_ok _ _ _ _ _ Hfull) as (out & Hout).
    rewrite Hout. f_equal. apply (Hgen None true rays _ Hout).
  - split; [|intros rc return_any rays; split;
              [intros k r c hit; apply query_no_triangles|apply Hgen]].
    intros rc rays Hlen Hrc.
    assert (Hfull : rays_triangles_id TOL_ZERO [] (Some rc) false rays
                    = Ok (Intersections (replicate (length rays) (Some [])))).
    { unfold rays_triangles_id.
      rewrite (full_mode_run TOL_ZERO [] (Some rc) rays
                 (replicate (length rays) [])).
      - rewrite map_Some_replicate. reflexivity.
      - apply length_replicate.
      - intros k r h Hr Hh. apply lookup_replicate in Hh as [-> _].
        apply lookup_lt_Some in Hr.
        destruct (lookup_lt_is_Some_2 rc k) as [c Hc]; [lia|].
        rewrite ray_hits_eq. unfold resolve. rewrite Hc.
        eapply Forall_lookup_1 in Hrc; [|exact Hc].
        destruct c as [[|b m]|[|j l]]; try discriminate; reflexivity. }
    split; [exact Hfull|].
    destruct (full_ok_any_ok _ _ _ _ _ Hfull) as (out & Hout).
    rewrite Hout. f_equal. apply (Hgen (Some rc) true rays _ Hout).
Qed.

(** *** Index-list candidates *)

Lemma lookup_map {A B} (f : A -> B) (l : list A) k :
  map f l !! k = f <$> l !! k.
Proof.
  revert k. induction l as [|a l IH]; intros [|k]; cbn; auto.
Qed.

Lemma norm_index_in_range n j :
  in_range n j = true -> Np.norm_index n j = Ok (Z.to_nat j).
Proof. unfold in_range, Np.norm_index. intros ->. reflexivity. Qed.

Lemma in_range_lt n j : in_range n j = true -> (Z.to_nat j < n)%nat.
Proof.
  unfold in_range. rewrite andb_true_iff, Z.leb_le, Z.ltb_lt. lia.
Qed.



Section IndexCandidates.

Variable TOL_ZERO : float.
Variable triangles : list triangle.

Lemma int_index_in_range (r : ray) idx :
  Forall (fun j => in_range (length triangles) j = true) idx ->
  exists ts, Np.int_index triangles idx = Ok ts
    /\ map (hit_test TOL_ZERO (ray_origin r) (ray_direction r)) ts
       = map (hits_triangle TOL_ZERO triangles r) idx.
Proof.
  induction 1 as [|j idx Hj _ (ts & Hts & Hmap)]; [exists []; auto|].
  cbn [Np.int_index]. rewrite (norm_index_in_range _ _ Hj).
  unfold mbind, result_bind.
  destruct (lookup_lt_is_Some_2 triangles (Z.to_nat j)
              (in_range_lt _ _ Hj)) as [tr Htr].
  rewrite Htr, Hts. exists (tr :: ts). split; [reflexivity|].
  cbn. unfold hits_triangle at 1. rewrite Htr, Hmap. reflexivity.
Qed.

(** With an in-range index list as candidates, a ray's entry lists the
    candidates that the filters pass, in the order of the list. *)
Lemma ray_hits_int rc k r l :
  rc !! k = Some (IntIdx l) ->
  Forall (fun j => in_range (length triangles) j = true) l ->
  ray_hits TOL_ZERO triangles (Some rc) k r
  = Ok (map VInt (List.filter (hits_triangle TOL_ZERO triangles r) l)).
Proof.
  intros Hk Hl. rewrite ray_hits_eq. unfold resolve. rewrite Hk.
  cbn [getitem as_values].
  destruct (int_index_in_range r l Hl) as (ts & -> & ->).
  apply bool_index_map.
Qed.


(** The full mode with in-range index lists, one per ray. *)
Lemma full_mode_int rays (cands : list (list Z)) :
  length rays <= length cands ->
  Forall (Forall (fun j => in_range (length triangles) j = true)) cands ->
  rays_triangles_id_traced TOL_ZERO triangles (Some (map IntIdx cands))
    false rays
  = (seq 0 (length rays),
     Ok (Intersections
           (map Some
              (zip_with
                 (fun r l =>
                    map VInt
                      (List.filter (hits_triangle TOL_ZERO triangles r) l))
                 rays cands)))).
Proof.
  intros Hlen Hrange. apply full_mode_run.
  - rewrite length_zip_with. lia.
  - intros k r h Hr Hh.
    apply lookup_zip_with_Some in Hh as (r' & l & -> & Hr' & Hl).
    rewrite Hr in Hr'. injection Hr' as <-.
    apply ray_hits_int.
    + rewrite lookup_map, Hl. reflexivity.
    + eapply Forall_lookup_1 in Hrange; eassumption.
Qed.

Lemma ones_map {A} (l : list A) :
  Np.ones (length l) = map (fun _ => true) l.
Proof. unfold Np.ones. induction l; cbn; congruence. Qed.

Lemma filter_all {A} (l : list A) : List.filter (fun _ => true) l = l.
Proof. induction l; cbn; congruence. Qed.

Lemma getitem_ones {A} (l : list A) :
  getitem l (BoolIdx (Np.ones (length l))) = Ok l.
Proof.
  cbn [getitem]. rewrite ones_map.
  pose proof (bool_index_map (fun _ : A => true) (fun x : A => x) l) as H.
  rewrite filter_all, map_id in H. exact H.
Qed.

(** With no candidates supplied, a ray's entry holds one [True] for each
    triangle that the filters pass. *)
Lemma ray_hits_default k r :
  ray_hits TOL_ZERO triangles None k r
  = Ok (map (fun _ => VBool true)
          (List.filter
             (hit_test TOL_ZERO (ray_origin r) (ray_direction r))
             triangles)).
Proof.
  rewrite ray_hits_eq. cbn [resolve]. rewrite getitem_ones.
  cbn [as_values]. rewrite ones_map, map_map.
  apply bool_index_map.
Qed.

Lemma full_mode_default rays :
  rays_triangles_id_traced TOL_ZERO triangles None false rays
  = (seq 0 (length rays),
     Ok (Intersections
           (map Some
              (map (fun r =>
                      map (fun _ => VBool true)
                        (List.filter
                           (hit_test TOL_ZERO (ray_origin r)
                              (ray_direction r))
                           triangles))
                 rays)))).
Proof.
  apply full_mode_run; [apply length_map|].
  intros k r h Hr Hh. rewrite lookup_map, Hr in Hh. injection Hh as <-.
  apply ray_hits_default.
Qed.

End IndexCandidates.

(** C1, the code at the scenario's input: without a candidate set the
    entries of the result are the booleans of the all-true mask, not
    triangle indices; the ray that misses gets the empty list; with the
    index list [[0]] supplied the hit is reported as the index 0. *)
Theorem C1_default_candidates_report_booleans :
  rays_triangles_id TOL_ZERO_value [scenario_triangle] None false
    [scenario_ray_hit] = Ok (Intersections [Some [VBool true]])
  /\ rays_triangles_id TOL_ZERO_value [scenario_triangle] None false
       [scenario_ray_miss] = Ok (Intersections [Some []])
  /\ rays_triangles_id TOL_ZERO_value [scenario_triangle]
       (Some [IntIdx [0%Z]]) false [scenario_ray_hit]
     = Ok (Intersections [Some [VInt 0]]).
Proof. repeat split; vm_compute; reflexivity. Qed.




(** *** Mismatched lengths *)

Lemma driver_raises TOL_ZERO triangles rc return_any rays e :
  rays_triangles_id TOL_ZERO triangles rc return_any rays = Raise e ->
  e = IndexError.
Proof.
  unfold rays_triangles_id. rewrite traced_eq.
  destruct (for_rays _ _ _ _ _ _ _ _ _) as [log [[b|hits]|e']] eqn:Hloop;
    cbn; try discriminate.
  intros [= <-]. eapply loop_raises, Hloop.
Qed.






(** ** Further properties *)

(** The short circuit on a concrete batch: the second ray hits, and the
    third ray, for which [ray_candidates] has no entry, is never reached;
    the full mode reaches it and raises. *)
Example short_circuit_example :
  rays_triangles_id_traced TOL_ZERO_value [scenario_triangle]
    (Some [IntIdx [0%Z]; IntIdx [0%Z]]) true
    [scenario_ray_miss; scenario_ray_hit; scenario_ray_hit]
  = ([0%nat; 1%nat], Ok (ReturnAny true))
  /\ rays_triangles_id_traced TOL_ZERO_value [scenario_triangle]
       (Some [IntIdx [0%Z]; IntIdx [0%Z]]) false
       [scenario_ray_miss; scenario_ray_hit; scenario_ray_hit]
     = ([0%nat; 1%nat], Raise IndexError).
Proof. split; vm_compute; reflexivity. Qed.

(** The hit reported for [overflow_triangle] does not depend on the
    tolerance chosen: it is reported for a tolerance of zero and for
    tolerances up to one. *)
Example overflow_hit_any_tolerance :
  Forall (fun tol =>
            ray_triangles tol [overflow_triangle]
              (ray_origin overflow_ray) (ray_direction overflow_ray)
            = Ok [true])
    [0; TOL_ZERO_value; 0x1p-30; 0x1p-20; 0x1p-10; 1].
Proof. repeat constructor. Qed.

(** X1: with no candidate set supplied, the full mode returns for every
    ray one [True] per triangle the ray hits, the entries of the all-true mask
    that the hit mask selects, and invokes the intersector once per ray,
    in order. *)
Theorem default_candidates_result (TOL_ZERO : float)
    (triangles : list triangle) (rays : list ray) :
  rays_triangles_id_traced TOL_ZERO triangles None false rays
  = (seq 0 (length rays),
     Ok (Intersections
           (map Some
              (map (fun r =>
                      map (fun _ => VBool true)
                        (List.filter
                           (hit_test TOL_ZERO (ray_origin r)
                              (ray_direction r))
                           triangles))
                 rays)))).
Proof. apply full_mode_default. Qed.

(** X2: with index lists [0 <= j < n] supplied, one per ray, the full mode
    returns for every ray the sublist of its candidates whose triangles
    the ray hits, in the order supplied. *)
Theorem index_candidates_result (TOL_ZERO : float)
    (triangles : list triangle) (rays : list ray) (cands : list (list Z))
    (Hlen : length rays <= length cands)
    (Hrange : Forall (Forall (fun j => in_range (length triangles) j = true))
                cands) :
  rays_triangles_id TOL_ZERO triangles (Some (map IntIdx cands)) false rays
  = Ok (Intersections
          (map Some
             (zip_with
                (fun r l =>
                   map VInt
                     (List.filter (hits_triangle TOL_ZERO triangles r) l))
                rays cands))).
Proof.
  unfold rays_triangles_id. rewrite full_mode_int by assumption.
  reflexivity.
Qed.

Lemma index_candidates_result_witness :
  rays_triangles_id TOL_ZERO_value [scenario_triangle; scenario_triangle]
    (Some (map IntIdx [[1%Z; 0%Z]; [1%Z]])) false
    [scenario_ray_hit; scenario_ray_miss]
  = Ok (Intersections
          (map Some
             (zip_with
                (fun r l =>
                   map VInt
                     (List.filter
                        (hits_triangle TOL_ZERO_value
                           [scenario_triangle; scenario_triangle] r) l))
                [scenario_ray_hit; scenario_ray_miss] [[1%Z; 0%Z]; [1%Z]]))).
Proof.
  apply (index_candidates_result TOL_ZERO_value
           [scenario_triangle; scenario_triangle]
           [scenario_ray_hit; scenario_ray_miss] [[1%Z; 0%Z]; [1%Z]]).
  - cbn. lia.
  - repeat constructor.
Defined.

(** X3: [rays_triangles_id] raises nothing but [IndexError], and
    [ray_triangles] raises nothing. *)
Theorem only_index_errors (TOL_ZERO : float) (triangles : list triangle)
    (rc : option (list index_array)) (return_any : bool) (rays : list ray) :
  (forall o d, is_ok (ray_triangles TOL_ZERO triangles o d) = true)
  /\ forall e,
       rays_triangles_id TOL_ZERO triangles rc return_any rays = Raise e ->
       e = IndexError.
Proof.
  split.
  - intros o d. rewrite ray_triangles_eq. reflexivity.
  - intros e. apply driver_raises.
Qed.

(** X4: permuting the batch permutes the mask with it: the triangles hit are
    the same whatever their order. *)
Theorem ray_triangles_permutation (TOL_ZERO : float)
    (triangles triangles' : list triangle) (o d : Np.vec3)
    (Hperm : Permutation triangles triangles') :
  exists hit hit',
    ray_triangles TOL_ZERO triangles o d = Ok hit
    /\ ray_triangles TOL_ZERO triangles' o d = Ok hit'
    /\ Permutation (combine triangles hit) (combine triangles' hit').
Proof.
  exists (map (hit_test TOL_ZERO o d) triangles),
         (map (hit_test TOL_ZERO o d) triangles').
  rewrite !ray_triangles_eq. repeat split.
  induction Hperm as [|x l l' _ IH|x y l|l l' l'' _ IH1 _ IH2]; cbn.
  - constructor.
  - constructor. exact IH.
  - apply perm_swap.
  - etransitivity; eassumption.
Qed.

Lemma ray_triangles_permutation_witness :
  exists hit hit',
    ray_triangles TOL_ZERO_value [scenario_triangle; overflow_triangle]
      (0.25, 0.25, 1) (0, 0, -1) = Ok hit
    /\ ray_triangles TOL_ZERO_value [overflow_triangle; scenario_triangle]
         (0.25, 0.25, 1) (0, 0, -1) = Ok hit'
    /\ Permutation (combine [scenario_triangle; overflow_triangle] hit)
         (combine [overflow_triangle; scenario_triangle] hit').
Proof.
  apply (ray_triangles_permutation TOL_ZERO_value
           [scenario_triangle; overflow_triangle]
           [overflow_triangle; scenario_triangle]).
  apply perm_swap.
Defined.


(** The edge tolerance of the specification on the scenario's triangle: a
    ray through the edge [u = 0] hits, and so does one through the vertex
    [u = v = 0]; a ray at [u = -2 TOL_ZERO] misses; a ray pointing away
    from the triangle misses ([t] is negative). *)
Theorem edge_tolerance_examples :
  ray_triangles TOL_ZERO_value [scenario_triangle] (0, 0.25, 1) (0, 0, -1)
  = Ok [true]
  /\ ray_triangles TOL_ZERO_value [scenario_triangle] (0, 0, 1) (0, 0, -1)
     = Ok [true]
  /\ ray_triangles TOL_ZERO_value [scenario_triangle]
       (- (2 * TOL_ZERO_value), 0.25, 1) (0, 0, -1) = Ok [false]
  /\ ray_triangles TOL_ZERO_value [scenario_triangle] (0.25, 0.25, 1)
       (0, 0, 1) = Ok [false].
Proof. repeat split; vm_compute; reflexivity. Qed.

(** ** Degenerate triangles and rays *)

Module Degenerate.

Definition sf_zn (f : spec_float) : bool :=
  match f with
  | S754_zero _ | S754_nan => true
  | _ => false
  end.

Lemma zn_spec x : zn x = sf_zn (Prim2SF x).
Proof.
  unfold zn. rewrite FloatAxioms.eqb_spec.
  change (Prim2SF 0) with (S754_zero false).
  destruct (is_nan x) eqn:E.
  - apply F.is_nan_spec in E. rewrite E. reflexivity.
  - apply F.not_nan_spec in E. rewrite orb_false_r.
    destruct (Prim2SF x) as [s|s| |s m e]; try destruct s;
      try reflexivity; congruence.
Qed.

(** [x - x] is a zero, or NaN when [x] is infinite or NaN. *)
Lemma sub_self x : zn (x - x) = true.
Proof.
  rewrite zn_spec, sub_spec. unfold SF64sub, SFsub.
  destruct (Prim2SF x) as [s|s| |s m e]; try destruct s; try reflexivity;
    rewrite Z.sub_diag; reflexivity.
Qed.

Lemma mul_zn_l x y : zn x = true -> zn (x * y) = true.
Proof.
  rewrite !zn_spec, mul_spec. unfold SF64mul, SFmul.
  destruct (Prim2SF x) as [s|s| |s m e]; try discriminate; intros _;
    destruct (Prim2SF y); reflexivity.
Qed.

Lemma mul_zn_r x y : zn y = true -> zn (x * y) = true.
Proof.
  rewrite !zn_spec, mul_spec. unfold SF64mul, SFmul.
  destruct (Prim2SF y) as [s|s| |s m e]; try discriminate; intros _;
    destruct (Prim2SF x); reflexivity.
Qed.

Lemma add_zn x y : zn x = true -> zn y = true -> zn (x + y) = true.
Proof.
  rewrite !zn_spec, add_spec. unfold SF64add, SFadd.
  destruct (Prim2SF x) as [s|s| |s m e]; try discriminate; intros _;
    destruct (Prim2SF y) as [s'|s'| |s' m' e']; try discriminate; intros _;
    try reflexivity.
  destruct s, s'; reflexivity.
Qed.

Lemma sub_zn x y : zn x = true -> zn y = true -> zn (x - y) = true.
Proof.
  rewrite !zn_spec, sub_spec. unfold SF64sub, SFsub.
  destruct (Prim2SF x) as [s|s| |s m e]; try discriminate; intros _;
    destruct (Prim2SF y) as [s'|s'| |s' m' e']; try discriminate; intros _;
    try reflexivity.
  destruct s, s'; reflexivity.
Qed.

Lemma and3_inv a b c :
  a && b && c = true -> a = true /\ b = true /\ c = true.
Proof. destruct a, b, c; cbn; auto. Qed.

Lemma and3_intro a b c :
  a = true -> b = true -> c = true -> a && b && c = true.
Proof. intros -> -> ->. reflexivity. Qed.

Create HintDb zn discriminated.

#[local] Hint Resolve mul_zn_l mul_zn_r add_zn sub_zn sub_self and3_intro
  : zn.

Lemma zero_vec_zn a : is_zero_vec a = true -> vec_zn a = true.
Proof.
  destruct a as [[a0 a1] a2]. cbn. unfold zn.
  intros H. apply and3_inv in H as (-> & -> & ->). reflexivity.
Qed.

Lemma sub3_self a : vec_zn (Np.sub3 a a) = true.
Proof. destruct a as [[a0 a1] a2]. cbn. auto with zn. Qed.

Lemma cross_zn_l a b : vec_zn a = true -> vec_zn (Np.cross a b) = true.
Proof.
  destruct a as [[a0 a1] a2], b as [[b0 b1] b2]. cbn.
  intros H. apply and3_inv in H as (H0 & H1 & H2). auto 6 with zn.
Qed.

Lemma cross_zn_r a b : vec_zn b = true -> vec_zn (Np.cross a b) = true.
Proof.
  destruct a as [[a0 a1] a2], b as [[b0 b1] b2]. cbn.
  intros H. apply and3_inv in H as (H0 & H1 & H2). auto 6 with zn.
Qed.

Lemma dot_zn_l a b : vec_zn a = true -> zn (Np.dot a b) = true.
Proof.
  destruct a as [[a0 a1] a2], b as [[b0 b1] b2]. cbn.
  intros H. apply and3_inv in H as (H0 & H1 & H2). auto 6 with zn.
Qed.

Lemma dot_zn_r a b : vec_zn b = true -> zn (Np.dot a b) = true.
Proof.
  destruct a as [[a0 a1] a2], b as [[b0 b1] b2]. cbn.
  intros H. apply and3_inv in H as (H0 & H1 & H2). auto 6 with zn.
Qed.

(** A determinant that is zero or NaN: no hit under a positive
    tolerance. *)
Lemma det_zn_no_hit TOL_ZERO o d tr :
  (0 <? TOL_ZERO) = true -> zn (det_of d tr) = true ->
  hit_test TOL_ZERO o d tr = false.
Proof.
  intros Htol H. unfold zn in H. apply orb_true_iff in H as [H|H].
  - unfold hit_test, pass_det.
    rewrite (F.abs_zero_ltb _ _ H Htol). reflexivity.
  - apply t_nan_no_hit, det_nan_t_nan, H.
Qed.

Lemma degenerate_det_zn d tr :
  tri_v1 tr = tri_v0 tr \/ tri_v2 tr = tri_v0 tr \/ is_zero_vec d = true ->
  zn (det_of d tr) = true.
Proof.
  unfold det_of, P_of, edge0_of, edge1_of. intros [H|[H|H]].
  - rewrite H. apply dot_zn_l, sub3_self.
  - rewrite H. apply dot_zn_r, cross_zn_r, sub3_self.
  - apply dot_zn_r, cross_zn_l, zero_vec_zn, H.
Qed.

End Degenerate.

(** X6: under a positive tolerance a triangle whose second or third vertex
    repeats the first is never marked as a hit, whatever its coordinates
    and the ray, and a ray whose direction is the null vector hits no
    triangle. *)
Theorem degenerate_never_hit (TOL_ZERO : float) (triangles : list triangle)
    (o d : Np.vec3) (Htol : (0 <? TOL_ZERO) = true) :
  exists hit,
    ray_triangles TOL_ZERO triangles o d = Ok hit
    /\ length hit = length triangles
    /\ forall i tr,
         triangles !! i = Some tr ->
         tri_v1 tr = tri_v0 tr \/ tri_v2 tr = tri_v0 tr
         \/ is_zero_vec d = true ->
         hit !! i = Some false.
Proof.
  exists (map (hit_test TOL_ZERO o d) triangles).
  split; [apply ray_triangles_eq|]. split; [apply length_map|].
  intros i tr Hi Hdeg. rewrite lookup_map, Hi. cbn. f_equal.
  apply Degenerate.det_zn_no_hit; [exact Htol|].
  apply Degenerate.degenerate_det_zn, Hdeg.
Qed.

Lemma degenerate_never_hit_witness :
  (0 <? TOL_ZERO_value) = true
  /\ exists hit,
       ray_triangles TOL_ZERO_value
         [Triangle (0.25, 0.25, 0) (0.25, 0.25, 0) (0, 1, 0);
          scenario_triangle]
         (0.25, 0.25, 1) (0, 0, -1) = Ok hit
       /\ length hit
          = length [Triangle (0.25, 0.25, 0) (0.25, 0.25, 0) (0, 1, 0);
                    scenario_triangle]
       /\ forall i tr,
            [Triangle (0.25, 0.25, 0) (0.25, 0.25, 0) (0, 1, 0);
             scenario_triangle] !! i = Some tr ->
            tri_v1 tr = tri_v0 tr \/ tri_v2 tr = tri_v0 tr
            \/ is_zero_vec (0, 0, -1) = true ->
            hit !! i = Some false.
Proof.
  split; [reflexivity|].
  apply (degenerate_never_hit TOL_ZERO_value
           [Triangle (0.25, 0.25, 0) (0.25, 0.25, 0) (0, 1, 0);
            scenario_triangle]
           (0.25, 0.25, 1) (0, 0, -1)).
  reflexivity.
Defined.

(** ** Batches *)

Lemma compress_map_comm {A B} (f : A -> B) mask (a : list A) :
  Np.compress mask (map f a) = map f (Np.compress mask a).
Proof.
  revert a. induction mask as [|b mask IH]; intros [|x a]; cbn;
    try reflexivity.
  destruct b; cbn; rewrite IH; reflexivity.
Qed.

(** X7: [ray_triangles] decides each triangle by itself: the mask of a
    concatenated batch is the concatenation of the masks, and selecting
    triangles by a mask before the call gives the mask selected after
    it. *)
Theorem ray_triangles_batch_independent (TOL_ZERO : float)
    (a b : list triangle) (o d : Np.vec3) :
  exists ha hb,
    ray_triangles TOL_ZERO a o d = Ok ha
    /\ ray_triangles TOL_ZERO b o d = Ok hb
    /\ ray_triangles TOL_ZERO (a ++ b) o d = Ok (ha ++ hb)
    /\ forall mask,
         length mask = length a ->
         (tris ← Np.bool_index a mask; ray_triangles TOL_ZERO tris o d)
         = Np.bool_index ha mask.
Proof.
  exists (map (hit_test TOL_ZERO o d) a), (map (hit_test TOL_ZERO o d) b).
  rewrite !ray_triangles_eq, map_app. repeat split.
  intros mask Hlen. unfold Np.bool_index.
  rewrite length_map, Hlen, Nat.eqb_refl. cbn.
  rewrite ray_triangles_eq, compress_map_comm. reflexivity.
Qed.




(** ** The any mode as a search *)

Lemma any_map_existsb {X} (p : X -> bool) xs :
  Np.any (map p xs) = existsb p xs.
Proof. unfold Np.any. induction xs as [|x xs IH]; cbn; congruence. Qed.

Lemma In_lookup {A} (l : list A) x : In x l <-> exists k, l !! k = Some x.
Proof. rewrite <- list_elem_of_In. apply list_elem_of_lookup. Qed.

Lemma existsb_perm {A} (f : A -> bool) l l' :
  Permutation l l' -> existsb f l = existsb f l'.
Proof.
  induction 1 as [|x l l' _ IH|x y l|l l' l'' _ IH1 _ IH2]; cbn.
  - reflexivity.
  - rewrite IH. reflexivity.
  - destruct (f x), (f y); reflexivity.
  - congruence.
Qed.

Section AnyMode.

Variable TOL_ZERO : float.
Variable triangles : list triangle.

(** Where every ray can be queried, the any mode returns, and returns
    true exactly when some ray's hit mask has a true entry. *)
Lemma any_mode_search rc rays (f : nat -> ray -> bool) :
  (forall k r, rays !! k = Some r ->
     exists c hit, query TOL_ZERO triangles rc k r = Ok (c, hit)
                   /\ Np.any hit = f k r) ->
  exists b,
    rays_triangles_id TOL_ZERO triangles rc true rays = Ok (ReturnAny b)
    /\ (b = true <-> exists k r, rays !! k = Some r /\ f k r = true).
Proof.
  intros Hq.
  destruct (any_loop_total TOL_ZERO triangles rc rays 0
              (BoolIdx (Np.ones (length triangles)))
              (replicate (length rays) None) [])
    as (log' & x & Hloop).
  { apply tracks_default. }
  { intros k r Hk. destruct (Hq k r Hk) as (c & hit & Hc & _). eauto. }
  assert (Hout : exists out,
            rays_triangles_id TOL_ZERO triangles rc true rays = Ok out).
  { unfold rays_triangles_id. rewrite traced_eq, Hloop.
    destruct x; cbn; eauto. }
  destruct Hout as [out Hout]. rewrite Hout.
  apply any_mode_inv in Hout
    as [(-> & pre & r & post & -> & _ & (c & hit & Hr & Hhit) & _)
       |(-> & _ & Hall)].
  - exists true. split; [reflexivity|]. split; [intros _|reflexivity].
    exists (length pre), r.
    assert (Hk : (pre ++ r :: post) !! length pre = Some r)
      by (apply list_lookup_middle; reflexivity).
    split; [exact Hk|].
    destruct (Hq _ _ Hk) as (c' & hit' & Hr' & <-).
    rewrite Hr in Hr'. injection Hr' as <- <-. exact Hhit.
  - exists false. split; [reflexivity|]. split; [discriminate|].
    intros (k & r & Hk & Hf). exfalso.
    destruct (Hq k r Hk) as (c & hit & Hr & Hany).
    destruct (Hall k r Hk) as (c' & hit' & Hr' & Hno).
    rewrite Hr in Hr'. injection Hr' as <- <-. congruence.
Qed.

Lemma query_default k r :
  query TOL_ZERO triangles None k r
  = Ok (BoolIdx (Np.ones (length triangles)),
        map (hit_test TOL_ZERO (ray_origin r) (ray_direction r)) triangles).
Proof.
  rewrite query_eq. cbn [resolve]. rewrite getitem_ones. reflexivity.
Qed.

Lemma any_mode_default rays :
  rays_triangles_id TOL_ZERO triangles None true rays
  = Ok (ReturnAny
          (existsb
             (fun r =>
                existsb (hit_test TOL_ZERO (ray_origin r) (ray_direction r))
                  triangles)
             rays)).
Proof.
  destruct (any_mode_search None rays
              (fun _ r => existsb (hit_test TOL_ZERO (ray_origin r)
                                     (ray_direction r)) triangles))
    as (b & -> & Hb).
  { intros k r _. rewrite query_default. eexists _, _.
    split; [reflexivity|]. apply any_map_existsb. }
  do 2 f_equal. apply eq_true_iff_eq. rewrite Hb, existsb_exists.
  split.
  - intros (k & r & Hk & Hf). exists r. split; [|exact Hf].
    apply In_lookup. eauto.
  - intros (r & Hin & Hf). apply In_lookup in Hin as [k Hk]. eauto.
Qed.

Lemma query_int (cands : list (list Z)) k r l :
  cands !! k = Some l ->
  Forall (fun j => in_range (length triangles) j = true) l ->
  query TOL_ZERO triangles (Some (map IntIdx cands)) k r
  = Ok (IntIdx l, map (hits_triangle TOL_ZERO triangles r) l).
Proof.
  intros Hk Hl. rewrite query_eq. unfold resolve.
  rewrite lookup_map, Hk. cbn [fmap option_fmap option_map getitem].
  destruct (int_index_in_range TOL_ZERO triangles r l Hl) as (ts & -> & ->).
  reflexivity.
Qed.

(** The any mode with in-range index lists: true exactly when some ray
    hits one of its candidates. *)
Lemma any_mode_int rays (cands : list (list Z)) :
  length rays <= length cands ->
  Forall (Forall (fun j => in_range (length triangles) j = true)) cands ->
  exists b,
    rays_triangles_id TOL_ZERO triangles (Some (map IntIdx cands)) true rays
    = Ok (ReturnAny b)
    /\ (b = true <->
        exists k r l j,
          rays !! k = Some r /\ cands !! k = Some l /\ In j l
          /\ hits_triangle TOL_ZERO triangles r j = true).
Proof.
  intros Hlen Hrange.
  destruct (any_mode_search (Some (map IntIdx cands)) rays
              (fun k r =>
                 match cands !! k with
                 | Some l => existsb (hits_triangle TOL_ZERO triangles r) l
                 | None => false
                 end))
    as (b & Hb & Hiff).
  { intros k r Hk. apply lookup_lt_Some in Hk.
    destruct (lookup_lt_is_Some_2 cands k) as [l Hl]; [lia|].
    rewrite Hl. eexists _, _. split.
    - apply query_int; [exact Hl|].
      eapply Forall_lookup_1 in Hrange; eassumption.
    - apply any_map_existsb. }
  exists b. split; [exact Hb|]. rewrite Hiff. split.
  - intros (k & r & Hk & Hf).
    destruct (cands !! k) as [l|] eqn:Hl; [|discriminate].
    apply existsb_exists in Hf as (j & Hj & Hhit).
    exists k, r, l, j. auto.
  - intros (k & r & l & j & Hk & Hl & Hj & Hhit).
    exists k, r. split; [exact Hk|]. rewrite Hl.
    apply existsb_exists. eauto.
Qed.

End AnyMode.

Lemma existsb_ext' {A} (f g : A -> bool) l :
  (forall x, f x = g x) -> existsb f l = existsb g l.
Proof. intros H. induction l as [|x l IH]; cbn; congruence. Qed.

(** X9: with no candidate set supplied, the any mode never raises and
    returns whether some ray hits some triangle. *)
Theorem any_mode_default_result (TOL_ZERO : float)
    (triangles : list triangle) (rays : list ray) :
  rays_triangles_id TOL_ZERO triangles None true rays
  = Ok (ReturnAny
          (existsb
             (fun r =>
                existsb (hit_test TOL_ZERO (ray_origin r) (ray_direction r))
                  triangles)
             rays)).
Proof. apply any_mode_default. Qed.

(** X10: with no candidate set supplied, the value the any mode returns does
    not depend on the order of the rays nor on the order of the
    triangles. *)
Theorem any_mode_order_independent (TOL_ZERO : float)
    (triangles triangles' : list triangle) (rays rays' : list ray)
    (Htri : Permutation triangles triangles')
    (Hrays : Permutation rays rays') :
  rays_triangles_id TOL_ZERO triangles None true rays
  = rays_triangles_id TOL_ZERO triangles' None true rays'.
Proof.
  rewrite !any_mode_default. do 2 f_equal.
  rewrite (existsb_perm _ rays rays' Hrays).
  apply existsb_ext'. intros r. apply existsb_perm, Htri.
Qed.

Lemma any_mode_order_independent_witness :
  rays_triangles_id TOL_ZERO_value [scenario_triangle; overflow_triangle]
    None true [scenario_ray_miss; scenario_ray_hit]
  = rays_triangles_id TOL_ZERO_value [overflow_triangle; scenario_triangle]
      None true [scenario_ray_hit; scenario_ray_miss].
Proof.
  apply (any_mode_order_independent TOL_ZERO_value
           [scenario_triangle; overflow_triangle]
           [overflow_triangle; scenario_triangle]
           [scenario_ray_miss; scenario_ray_hit]
           [scenario_ray_hit; scenario_ray_miss]);
    apply perm_swap.
Defined.

(** X11: with in-range index lists supplied, at least one per ray, the any
    mode never raises and returns true exactly when some ray hits one of its
    own candidates. *)
Theorem any_mode_index_candidates (TOL_ZERO : float)
    (triangles : list triangle) (rays : list ray) (cands : list (list Z))
    (Hlen : length rays <= length cands)
    (Hrange : Forall (Forall (fun j => in_range (length triangles) j = true))
                cands) :
  exists b,
    rays_triangles_id TOL_ZERO triangles (Some (map IntIdx cands)) true rays
    = Ok (ReturnAny b)
    /\ (b = true <->
        exists k r l j,
          rays !! k = Some r /\ cands !! k = Some l /\ In j l
          /\ hits_triangle TOL_ZERO triangles r j = true).
Proof. apply any_mode_int; assumption. Qed.

Lemma any_mode_index_candidates_witness :
  exists b,
    rays_triangles_id TOL_ZERO_value [scenario_triangle; scenario_triangle]
      (Some (map IntIdx [[]; [1%Z]])) true
      [scenario_ray_hit; scenario_ray_hit]
    = Ok (ReturnAny b)
    /\ (b = true <->
        exists k r l j,
          [scenario_ray_hit; scenario_ray_hit] !! k = Some r
          /\ [[]; [1%Z]] !! k = Some l /\ In j l
          /\ hits_triangle TOL_ZERO_value
               [scenario_triangle; scenario_triangle] r j = true).
Proof.
  apply (any_mode_index_candidates TOL_ZERO_value
           [scenario_triangle; scenario_triangle]
           [scenario_ray_hit; scenario_ray_hit] [[]; [1%Z]]).
  - cbn. lia.
  - repeat constructor.
Defined.

(** X12: enlarging the candidate lists never turns a true of the any mode into
    a false: if it returns true for candidate lists, it returns true for
    any lists that include them, ray by ray. *)
Theorem any_mode_candidates_monotone (TOL_ZERO : float)
    (triangles : list triangle) (rays : list ray)
    (cands cands' : list (list Z))
    (Hlen : length rays <= length cands)
    (Hrange : Forall (Forall (fun j => in_range (length triangles) j = true))
                cands)
    (Hrange' : Forall (Forall (fun j => in_range (length triangles) j = true))
                 cands')
    (Hincl : Forall2 (fun l l' => forall j, In j l -> In j l') cands cands')
    (Htrue : rays_triangles_id TOL_ZERO triangles (Some (map IntIdx cands))
               true rays = Ok (ReturnAny true)) :
  rays_triangles_id TOL_ZERO triangles (Some (map IntIdx cands')) true rays
  = Ok (ReturnAny true).
Proof.
  destruct (any_mode_int TOL_ZERO triangles rays cands Hlen Hrange)
    as (b & Hb & Hiff).
  rewrite Htrue in Hb. injection Hb as <-.
  destruct (proj1 Hiff eq_refl) as (k & r & l & j & Hk & Hl & Hj & Hhit).
  destruct (any_mode_int TOL_ZERO triangles rays cands') as (b' & Hb' & Hiff');
    [rewrite <- (Forall2_length _ _ _ Hincl); exact Hlen|exact Hrange'|].
  rewrite Hb'. do 2 f_equal. apply Hiff'.
  destruct (Forall2_lookup_l _ _ _ _ _ Hincl Hl) as (l' & Hl' & Hsub).
  exists k, r, l', j. auto.
Qed.

Lemma any_mode_candidates_monotone_witness :
  rays_triangles_id TOL_ZERO_value [scenario_triangle; scenario_triangle]
    (Some (map IntIdx [[1%Z]; []])) true
    [scenario_ray_hit; scenario_ray_miss]
  = Ok (ReturnAny true)
  /\ rays_triangles_id TOL_ZERO_value [scenario_triangle; scenario_triangle]
       (Some (map IntIdx [[0%Z; 1%Z]; [0%Z]])) true
       [scenario_ray_hit; scenario_ray_miss]
     = Ok (ReturnAny true).
Proof.
  split; [vm_compute; reflexivity|].
  apply (any_mode_candidates_monotone TOL_ZERO_value
           [scenario_triangle; scenario_triangle]
           [scenario_ray_hit; scenario_ray_miss]
           [[1%Z]; []] [[0%Z; 1%Z]; [0%Z]]).
  - cbn. lia.
  - repeat constructor.
  - repeat constructor.
  - constructor; [cbn; tauto|]. constructor; [cbn; tauto|]. constructor.
  - vm_compute. reflexivity.
Defined.

(** ** Splitting the ray batch *)




(** ** The row-wise dot product *)

Lemma SFmul_comm prec emax x y : SFmul prec emax x y = SFmul prec emax y x.
Proof.
  destruct x as [sx|sx| |sx mx ex], y as [sy|sy| |sy my ey]; cbn;
    rewrite ?(xorb_comm sx sy); try reflexivity.
  rewrite (Pos.mul_comm mx my), (Z.add_comm ex ey). reflexivity.
Qed.

Lemma mul_comm (x y : float) : x * y = y * x.
Proof.
  apply Prim2SF_inj. rewrite !mul_spec. apply SFmul_comm.
Qed.

Lemma dot_comm (a b : Np.vec3) : Np.dot a b = Np.dot b a.
Proof.
  destruct a as [[a0 a1] a2], b as [[b0 b1] b2]. cbn.
  rewrite (mul_comm a0 b0), (mul_comm a1 b1), (mul_comm a2 b2).
  reflexivity.
Qed.

(** X14: [_diag_dot] is symmetric in its arguments, bit for bit, and the dot
    products of two batches in a row are those of the batches, in a row,
    when the first arguments pair off. *)
Theorem diag_dot_symmetric (a b : list Np.vec3) :
  _diag_dot a b = _diag_dot b a
  /\ forall a' b',
       length a = length b ->
       _diag_dot (a ++ a') (b ++ b') = _diag_dot a b ++ _diag_dot a' b'.
Proof.
  unfold _diag_dot. split.
  - revert b. induction a as [|x a IH]; intros [|y b]; cbn;
      try reflexivity.
    rewrite dot_comm, IH. reflexivity.
  - intros a' b'. revert b.
    induction a as [|x a IH]; intros [|y b] Hlen; try discriminate; cbn;
      [reflexivity|].
    rewrite IH by (cbn in Hlen; lia). reflexivity.
Qed.

(** ** Negative indices and boolean masks as candidates *)

Lemma norm_index_valid n j :
  valid_index n j = true ->
  Np.norm_index n j = Ok (Z.to_nat (wrap_index n j))
  /\ (Z.to_nat (wrap_index n j) < n)%nat.
Proof.
  unfold valid_index, Np.norm_index, wrap_index.
  rewrite andb_true_iff, Z.leb_le, Z.ltb_lt. intros [Hlo Hhi].
  destruct (j <? 0)%Z eqn:Hneg.
  - apply Z.ltb_lt in Hneg.
    rewrite (proj2 (Z.leb_gt 0 j)) by lia. cbn [andb].
    rewrite (proj2 (Z.leb_le (- Z.of_nat n) j)) by lia. cbn [andb].
    split; [reflexivity|lia].
  - apply Z.ltb_ge in Hneg.
    rewrite (proj2 (Z.leb_le 0 j)), (proj2 (Z.ltb_lt j (Z.of_nat n)))
      by lia.
    cbn [andb]. split; [reflexivity|lia].
Qed.

Section ValidCandidates.

Variable TOL_ZERO : float.
Variable triangles : list triangle.

Lemma int_index_valid (r : ray) idx :
  Forall (fun j => valid_index (length triangles) j = true) idx ->
  exists ts, Np.int_index triangles idx = Ok ts
    /\ map (hit_test TOL_ZERO (ray_origin r) (ray_direction r)) ts
       = map (fun j => hits_triangle TOL_ZERO triangles r
                         (wrap_index (length triangles) j)) idx.
Proof.
  induction 1 as [|j idx Hj _ (ts & Hts & Hmap)]; [exists []; auto|].
  cbn [Np.int_index].
  destruct (norm_index_valid _ _ Hj) as [-> Hlt].
  unfold mbind, result_bind.
  destruct (lookup_lt_is_Some_2 triangles _ Hlt) as [tr Htr].
  rewrite Htr, Hts. exists (tr :: ts). split; [reflexivity|].
  cbn. unfold hits_triangle at 1. rewrite Htr, Hmap. reflexivity.
Qed.

Lemma ray_hits_valid rc k r l :
  rc !! k = Some (IntIdx l) ->
  Forall (fun j => valid_index (length triangles) j = true) l ->
  ray_hits TOL_ZERO triangles (Some rc) k r
  = Ok (map VInt
          (List.filter
             (fun j => hits_triangle TOL_ZERO triangles r
                         (wrap_index (length triangles) j)) l)).
Proof.
  intros Hk Hl. rewrite ray_hits_eq. unfold resolve. rewrite Hk.
  cbn [getitem as_values].
  destruct (int_index_valid r l Hl) as (ts & -> & ->).
  apply bool_index_map.
Qed.


End ValidCandidates.

(** X15: with index lists of indices [-n <= j < n] supplied, at least one per
    ray, the full mode returns; a negative index tests the triangle
    counted from the end and is reported as it was supplied. *)
Theorem negative_indices_wrap_around (TOL_ZERO : float)
    (triangles : list triangle) (rays : list ray) (cands : list (list Z))
    (Hlen : length rays <= length cands)
    (Hvalid : Forall (Forall (fun j => valid_index (length triangles) j
                                       = true)) cands) :
  rays_triangles_id TOL_ZERO triangles (Some (map IntIdx cands)) false rays
  = Ok (Intersections
          (map Some
             (zip_with
                (fun r l =>
                   map VInt
                     (List.filter
                        (fun j => hits_triangle TOL_ZERO triangles r
                                    (wrap_index (length triangles) j)) l))
                rays cands))).
Proof.
  unfold rays_triangles_id.
  match goal with
  | |- _ = Ok (Intersections (map Some ?hs)) =>
      rewrite (full_mode_run _ _ _ rays hs); [reflexivity| |]
  end.
  - rewrite length_zip_with. lia.
  - intros k r h Hr Hh.
    apply lookup_zip_with_Some in Hh as (r' & l & -> & Hr' & Hl).
    rewrite Hr in Hr'. injection Hr' as <-.
    apply ray_hits_valid.
    + rewrite lookup_map, Hl. reflexivity.
    + eapply Forall_lookup_1 in Hvalid; eassumption.
Qed.

Lemma negative_indices_wrap_around_witness :
  rays_triangles_id TOL_ZERO_value [overflow_triangle; scenario_triangle]
    (Some (map IntIdx [[(-1)%Z; 0%Z; (-2)%Z]])) false [scenario_ray_hit]
  = Ok (Intersections
          (map Some
             (zip_with
                (fun r l =>
                   map VInt
                     (List.filter
                        (fun j =>
                           hits_triangle TOL_ZERO_value
                             [overflow_triangle; scenario_triangle] r
                             (wrap_index
                                (length [overflow_triangle;
                                         scenario_triangle]) j)) l))
                [scenario_ray_hit] [[(-1)%Z; 0%Z; (-2)%Z]]))).
Proof.
  apply (negative_indices_wrap_around TOL_ZERO_value
           [overflow_triangle; scenario_triangle] [scenario_ray_hit]
           [[(-1)%Z; 0%Z; (-2)%Z]]).
  - cbn. lia.
  - repeat constructor.
Defined.


